(** * CycloMeter: the three-rotor cipher engine and its cycle analyser

    A shallow embedding of [src/CODE/CycloMeter.py]: the embedded rotor,
    notch and reflector tables, [encrypt_letter] and [get_cycle_structure],
    and the guard of [display_cycles].

    Python values are modelled as follows.
    - [int] is [Z]; [%] with the positive modulus 26 is [Z.modulo].
    - a one-character [str] is [ascii], a longer [str] is [string].
    - [dict] is stdpp's [gmap], [set] is [gset].
    - a raised exception is an [exn] carried by [result]; a [while True]
      loop is run on fuel and [NoFuel] is what an exhausted run yields. *)

From Stdlib Require Import ZArith Lia List Ascii String.
From stdpp Require Import base gmap sets list strings pretty sorting.

Local Open Scope Z_scope.

(** ** Outcomes of a Python call *)

Inductive exn : Type :=
| KeyError (key : string)
| IndexError
| ValueError.

Inductive result (A : Type) : Type :=
| Ok (a : A)
| Raise (e : exn)
| NoFuel.

Arguments Ok {A} a.
Arguments Raise {A} e.
Arguments NoFuel {A}.

Definition result_bind {A B} (f : A → result B) (r : result A) : result B :=
  match r with
  | Ok a => f a
  | Raise e => Raise e
  | NoFuel => NoFuel
  end.

Global Instance result_mret : MRet result := λ A a, Ok a.
Global Instance result_mbind : MBind result := λ A B f r, result_bind f r.

(** ** Python primitives used by the module *)

(** [ord(ch)] *)
Definition ord (ch : ascii) : Z := Z.of_N (N_of_ascii ch).

(** [chr(i)]. Code points above 255 have no counterpart in [ascii]; every
    call below passes a residue modulo 26 plus 65. *)
Definition chr (i : Z) : result ascii :=
  if bool_decide (0 ≤ i < 256) then Ok (ascii_of_N (Z.to_N i))
  else Raise ValueError.

(** [s[i]] on a [str]: a negative index counts from the end, an index out
    of range raises [IndexError]. *)
Definition str_getitem (s : string) (i : Z) : result ascii :=
  let n := Z.of_nat (String.length s) in
  let j := if bool_decide (i < 0) then i + n else i in
  if bool_decide (0 ≤ j < n) then
    match String.get (Z.to_nat j) s with
    | Some c => Ok c
    | None => Raise IndexError
    end
  else Raise IndexError.

(** [s.index(ch)]: position of the first occurrence, [ValueError] if none. *)
Fixpoint str_index (s : string) (ch : ascii) : result Z :=
  match s with
  | EmptyString => Raise ValueError
  | String c s' =>
      if Ascii.eqb c ch then Ok 0
      else i ← str_index s' ch; Ok (i + 1)
  end.

(** [d[k]]: [KeyError] when the key is absent. [show] renders the key. *)
Definition dict_getitem `{Countable K} {V} (show : K → string)
    (d : gmap K V) (k : K) : result V :=
  match d !! k with
  | Some v => Ok v
  | None => Raise (KeyError (show k))
  end.

Definition show_char (c : ascii) : string := String c EmptyString.
Definition show_str (s : string) : string := s.

(** A dict display [{k1: v1, k2: v2, ...}] and a dict comprehension: entries
    are inserted left to right, a later entry replaces an earlier one. *)
Definition dict_of `{Countable K} {V} (entries : list (K * V)) : gmap K V :=
  foldl (λ d kv, <[kv.1 := kv.2]> d) ∅ entries.

(** [string.ascii_uppercase] *)
Definition ascii_uppercase : string := "ABCDEFGHIJKLMNOPQRSTUVWXYZ".

(** ** Embedded tables (lines 11-31) *)

Definition rotor_wiring : gmap string string :=
  dict_of [ ("I",   "EKMFLGDQVZNTOWYHXUSPAIBRCJ");
            ("II",  "AJDKSIRUXBLHWTMCQGZNPYFVOE");
            ("III", "BDFHJLCPRTXVZNYEIWGAKMUSQO") ]%string.

Definition rotor_notch : gmap string ascii :=
  dict_of [ ("I"%string, "Q"%char); ("II"%string, "E"%char);
            ("III"%string, "V"%char) ].

Definition reflector_A : gmap ascii ascii :=
  dict_of [ ("A","E"); ("E","A"); ("B","J"); ("J","B"); ("C","M"); ("M","C");
            ("D","Z"); ("Z","D");
            ("F","L"); ("L","F"); ("G","Y"); ("Y","G"); ("H","X"); ("X","H");
            ("I","V"); ("V","I");
            ("K","W"); ("W","K"); ("N","O"); ("O","N"); ("P","Q"); ("Q","P");
            ("R","U"); ("U","R"); ("S","T"); ("T","S") ]%char.

Definition reflector_B : gmap ascii ascii :=
  dict_of [ ("A","Y"); ("Y","A"); ("B","R"); ("R","B"); ("C","U"); ("U","C");
            ("D","H"); ("H","D");
            ("E","Q"); ("Q","E"); ("F","S"); ("S","F"); ("G","L"); ("L","G");
            ("I","P"); ("P","I");
            ("J","X"); ("X","J"); ("K","N"); ("N","K"); ("M","O"); ("O","M");
            ("T","Z"); ("Z","T"); ("V","W"); ("W","V") ]%char.

Definition reflector_wiring : gmap string (gmap ascii ascii) :=
  dict_of [ ("A"%string, reflector_A); ("B"%string, reflector_B) ].

(** [{ch: ch for ch in string.ascii_uppercase}] *)
Definition plugboard_map : gmap ascii ascii :=
  dict_of ((λ ch, (ch, ch)) <$> list_ascii_of_string ascii_uppercase).

(** ** [encrypt_letter] (lines 33-104) *)

Definition char_to_index (ch : ascii) : Z := ord ch - ord "A".
Definition index_to_char (i : Z) : result ascii := chr (i + ord "A").

(** [string.ascii_uppercase[pos] == rotor_notch[rotor]] (lines 38, 41, 42) *)
Definition at_notch (pos : Z) (rotor : string) : result bool :=
  ch ← str_getitem ascii_uppercase pos;
  notch ← dict_getitem show_str rotor_notch rotor;
  Ok (Ascii.eqb ch notch).

(** Lines 37-45. Line 39 rebinds [pos_left] only, so both tests of lines
    41-42 read the incoming [pos_mid] and [pos_right]; [or] evaluates its
    right operand only when the left one is false. *)
Definition step_rotors (rotor_order : string * string * string)
    (rotor_positions : Z * Z * Z) : result (Z * Z * Z) :=
  let '(left_rotor, mid_rotor, right_rotor) := rotor_order in
  let '(pos_left, pos_mid, pos_right) := rotor_positions in
  mid_at ← at_notch pos_mid mid_rotor;
  let pos_left' := if mid_at : bool then (pos_left + 1) mod 26 else pos_left in
  right_at ← at_notch pos_right right_rotor;
  turn_mid ← (if right_at : bool then Ok true else at_notch pos_mid mid_rotor);
  let pos_mid' := if turn_mid : bool then (pos_mid + 1) mod 26 else pos_mid in
  let pos_right' := (pos_right + 1) mod 26 in
  Ok (pos_left', pos_mid', pos_right').

(** [(char_to_index(wiring_str[(in_idx + offset) % 26]) - offset) % 26]
    (lines 58, 65, 72) *)
Definition forward_substitute (wiring_str : string) (in_idx offset : Z)
    : result Z :=
  w ← str_getitem wiring_str ((in_idx + offset) mod 26);
  Ok ((char_to_index w - offset) mod 26).

(** [(wiring_str.index(chr(((in_idx + offset) % 26) + ord('A'))) - offset) % 26]
    (lines 83, 90, 97) *)
Definition backward_substitute (wiring_str : string) (in_idx offset : Z)
    : result Z :=
  ch ← chr ((in_idx + offset) mod 26 + ord "A");
  i ← str_index wiring_str ch;
  Ok ((i - offset) mod 26).

(** The body of [encrypt_letter]. Python resolves the module-level name
    [reflector_wiring] when line 76 runs; the table it finds there is the
    argument [reflectors]. *)
Definition encrypt_letter_with (reflectors : gmap string (gmap ascii ascii))
    (letter : ascii) (rotor_order : string * string * string)
    (rotor_positions : Z * Z * Z) (reflector_type : string)
    : result (ascii * (Z * Z * Z)) :=
  let '(left_rotor, mid_rotor, right_rotor) := rotor_order in
  (* Step rotors *)
  '(pos_left, pos_mid, pos_right) ← step_rotors rotor_order rotor_positions;
  (* Plugboard in *)
  c ← dict_getitem show_char plugboard_map letter;
  (* Forward: right rotor *)
  let in_idx := char_to_index c in
  let offset := pos_right in
  wiring_str ← dict_getitem show_str rotor_wiring right_rotor;
  out_idx ← forward_substitute wiring_str in_idx offset;
  (* Forward: middle rotor *)
  c ← index_to_char out_idx;
  let in_idx := char_to_index c in
  let offset := pos_mid in
  wiring_str ← dict_getitem show_str rotor_wiring mid_rotor;
  out_idx ← forward_substitute wiring_str in_idx offset;
  (* Forward: left rotor *)
  c ← index_to_char out_idx;
  let in_idx := char_to_index c in
  let offset := pos_left in
  wiring_str ← dict_getitem show_str rotor_wiring left_rotor;
  out_idx ← forward_substitute wiring_str in_idx offset;
  (* Reflector *)
  c ← index_to_char out_idx;
  table ← dict_getitem show_str reflectors reflector_type;
  c ← dict_getitem show_char table c;
  (* Back: left rotor *)
  let in_idx := char_to_index c in
  let offset := pos_left in
  wiring_str ← dict_getitem show_str rotor_wiring left_rotor;
  out_idx ← backward_substitute wiring_str in_idx offset;
  (* Back: middle rotor *)
  c ← str_getitem ascii_uppercase out_idx;
  let in_idx := ord c - ord "A" in
  let offset := pos_mid in
  wiring_str ← dict_getitem show_str rotor_wiring mid_rotor;
  out_idx ← backward_substitute wiring_str in_idx offset;
  (* Back: right rotor *)
  c ← str_getitem ascii_uppercase out_idx;
  let in_idx := ord c - ord "A" in
  let offset := pos_right in
  wiring_str ← dict_getitem show_str rotor_wiring right_rotor;
  out_idx ← backward_substitute wiring_str in_idx offset;
  (* Plugboard out *)
  c ← str_getitem ascii_uppercase out_idx;
  c ← dict_getitem show_char plugboard_map c;
  Ok (c, (pos_left, pos_mid, pos_right)).

Definition encrypt_letter := encrypt_letter_with reflector_wiring.

(** ** [get_cycle_structure] (lines 106-151) *)

(** The [while True] loop of lines 122-149, one iteration per unit of fuel.
    It yields the finished [cycle] and the updated [seen]. *)
Fixpoint cycle_loop (fuel : nat) (rotor_order : string * string * string)
    (start_positions : Z * Z * Z) (reflector_type : string)
    (start_letter current_letter : ascii) (cycle : list ascii)
    (seen : gset ascii) : result (list ascii * gset ascii) :=
  match fuel with
  | O => NoFuel
  | S fuel =>
      (* Step 1 *)
      '(_, (pos_left1, pos_mid1, pos_right1)) ←
        encrypt_letter current_letter rotor_order start_positions
          reflector_type;
      (* Steps 2 & 3 *)
      let dummy := "A"%char in
      '(_, (pos_left2, pos_mid2, pos_right2)) ←
        encrypt_letter dummy rotor_order (pos_left1, pos_mid1, pos_right1)
          reflector_type;
      '(_, (pos_left3, pos_mid3, pos_right3)) ←
        encrypt_letter dummy rotor_order (pos_left2, pos_mid2, pos_right2)
          reflector_type;
      (* Step 4 *)
      '(output_letter, _) ←
        encrypt_letter current_letter rotor_order
          (pos_left3, pos_mid3, pos_right3) reflector_type;
      let cycle := cycle ++ [current_letter] in
      let seen := {[current_letter]} ∪ seen in
      let current_letter := output_letter in
      if bool_decide (current_letter = start_letter) then
        Ok (cycle ++ [current_letter], seen)
      else
        cycle_loop fuel rotor_order start_positions reflector_type
          start_letter current_letter cycle seen
  end.

(** The [for letter in string.ascii_uppercase] loop of lines 114-150 over
    the letters still to visit. *)
Fixpoint for_letters (fuel : nat) (rotor_order : string * string * string)
    (start_positions : Z * Z * Z) (reflector_type : string)
    (letters : list ascii) (cycles : list (list ascii)) (seen : gset ascii)
    : result (list (list ascii)) :=
  match letters with
  | [] => Ok cycles
  | letter :: letters =>
      if bool_decide (letter ∈ seen) then
        for_letters fuel rotor_order start_positions reflector_type
          letters cycles seen
      else
        '(cycle, seen) ←
          cycle_loop fuel rotor_order start_positions reflector_type
            letter letter [] seen;
        for_letters fuel rotor_order start_positions reflector_type
          letters (cycles ++ [cycle]) seen
  end.

(** [fuel] bounds the iterations of each [while True] loop. *)
Definition get_cycle_structure (fuel : nat)
    (rotor_order : string * string * string) (start_positions : Z * Z * Z)
    (reflector_type : string) : result (list (list ascii)) :=
  for_letters fuel rotor_order start_positions reflector_type
    (list_ascii_of_string ascii_uppercase) [] ∅.

(** ** [display_cycles] (lines 155-205) *)

Definition rotor_options : list string := ["I"; "II"; "III"]%string.
Definition reflector_options : list string := ["A"; "B"]%string.

(** A call that prints: it extends the lines written so far and ends in an
    outcome. Lines printed before an exception stay printed. *)
Definition io (A : Type) : Type := list string → list string * result A.

Definition io_bind {A B} (m : io A) (f : A → io B) : io B := λ out,
  match m out with
  | (out', Ok a) => f a out'
  | (out', Raise e) => (out', Raise e)
  | (out', NoFuel) => (out', NoFuel)
  end.

Definition print (line : string) : io () := λ out, (out ++ [line], Ok ()).
Definition lift {A} (r : result A) : io A := λ out, (out, r).

Global Instance io_mret : MRet io := λ A a out, (out, Ok a).
Global Instance io_mbind : MBind io := λ A B f m, io_bind m f.

(** [sep.join(parts)] *)
Fixpoint join (sep : string) (parts : list string) : string :=
  match parts with
  | [] => ""
  | [p] => p
  | p :: ps => p +:+ sep +:+ join sep ps
  end.

(** [sorted(cycles, key=lambda cyc: cyc[0])]: the keys are taken first
    ([cyc[0]] raises [IndexError] on an empty list), then the list is sorted
    stably by key. *)
Fixpoint insert_by_key (kx : ascii * list ascii)
    (l : list (ascii * list ascii)) : list (ascii * list ascii) :=
  match l with
  | [] => [kx]
  | ky :: l' =>
      if bool_decide (ord kx.1 ≤ ord ky.1) then kx :: l
      else ky :: insert_by_key kx l'
  end.

Definition first_letter (cyc : list ascii) : result ascii :=
  match cyc with
  | [] => Raise IndexError
  | c :: _ => Ok c
  end.

Fixpoint keyed (cycles : list (list ascii))
    : result (list (ascii * list ascii)) :=
  match cycles with
  | [] => Ok []
  | cyc :: rest =>
      k ← first_letter cyc; ks ← keyed rest; Ok ((k, cyc) :: ks)
  end.

Definition sorted_by_first (cycles : list (list ascii))
    : result (list (list ascii)) :=
  ks ← keyed cycles; Ok (snd <$> foldr insert_by_key [] ks).

(** The body of the loop of lines 193-200 for the [i]-th cycle. *)
Definition print_cycle (i : nat) (cyc : list ascii) : io () :=
  let cycle_body := removelast cyc in
  closing ← lift (match last cyc with
                  | Some c => Ok c
                  | None => Raise IndexError
                  end);
  let cycle_str :=
    join " -> " (show_char <$> cycle_body) +:+ " -> " +:+ show_char closing in
  let length := List.length cycle_body in
  print ("Cycle " +:+ pretty i +:+ ": " +:+ cycle_str +:+
         "  (length = " +:+ pretty length +:+ ")").

Fixpoint print_cycles (i : nat) (cycles_sorted : list (list ascii)) : io () :=
  match cycles_sorted with
  | [] => lift (Ok ())
  | cyc :: rest => print_cycle i cyc;; print_cycles (S i) rest
  end.

Definition display_cycles (fuel : nat)
    (left_rotor middle_rotor right_rotor : string)
    (left_pos middle_pos right_pos : Z) (reflector : string) : io () :=
  if bool_decide
       (size ({[left_rotor; middle_rotor; right_rotor]} : gset string) < 3)%nat
  then
    print "**Please select three distinct rotors.**"
  else
    let rotor_order := (left_rotor, middle_rotor, right_rotor) in
    let start_positions := (left_pos, middle_pos, right_pos) in
    cycles ← lift (get_cycle_structure fuel rotor_order start_positions
                     reflector);
    cycles_sorted ← lift (sorted_by_first cycles);
    print ("**Rotor Order:** " +:+ left_rotor +:+ "-" +:+ middle_rotor +:+
           "-" +:+ right_rotor);;
    l ← lift (str_getitem ascii_uppercase left_pos);
    m ← lift (str_getitem ascii_uppercase middle_pos);
    r ← lift (str_getitem ascii_uppercase right_pos);
    print ("**Start Positions:** " +:+ show_char l +:+ " " +:+
           show_char m +:+ " " +:+ show_char r);;
    print ("**Reflector:** " +:+ reflector);;
    print "";;
    print_cycles 1 cycles_sorted;;
    let cycle_lengths := (λ cyc, Z.of_nat (List.length cyc) - 1) <$> cycles in
    print "";;
    print ("**Cycle lengths:** " +:+
           "[" +:+ join ", " (pretty <$> cycle_lengths) +:+ "]" +:+ " " +:+
           "(sum=" +:+ pretty (foldr Z.add 0 cycle_lengths) +:+ ")").

(** * Verification *)

Global Instance exn_eq_dec : EqDecision exn.
Proof. solve_decision. Defined.

Global Instance result_eq_dec `{EqDecision A} : EqDecision (result A).
Proof. solve_decision. Defined.

Lemma bind_Ok {A B} (a : A) (f : A → result B) : (Ok a ≫= f) = f a.
Proof. reflexivity. Qed.

Lemma bind_Raise {A B} (e : exn) (f : A → result B) :
  (Raise e ≫= f) = Raise e.
Proof. reflexivity. Qed.

(** ** Enumerating the 26 indices *)

Lemma seqZ_26 :
  seqZ 0 26 = [0; 1; 2; 3; 4; 5; 6; 7; 8; 9; 10; 11; 12; 13; 14; 15; 16; 17;
               18; 19; 20; 21; 22; 23; 24; 25].
Proof. reflexivity. Qed.

Lemma range26 (P : Z → Prop) :
  Forall P (seqZ 0 26) → ∀ i, 0 ≤ i < 26 → P i.
Proof.
  intros HP i Hi. rewrite Forall_forall in HP. apply HP.
  apply elem_of_seqZ. lia.
Qed.

(** Splits a goal [∀ i, 0 ≤ i < 26 → P i] into its 26 closed instances. *)
Ltac each_index :=
  apply range26; rewrite seqZ_26; repeat apply Forall_cons_2;
  try apply Forall_nil_2.

Ltac run := vm_compute; first [reflexivity | done].

(** ** Letters and their indices *)

Definition letters : list ascii := list_ascii_of_string ascii_uppercase.

(** The letter with alphabet index [i]. *)
Definition letter_of (i : Z) : ascii := ascii_of_N (Z.to_N (i + ord "A")).

Lemma ord_A : ord "A" = 65.
Proof. reflexivity. Qed.

Lemma ord_letter_of i : 0 ≤ i < 26 → ord (letter_of i) = i + 65.
Proof.
  intros Hi. unfold ord at 1, letter_of. rewrite ord_A.
  rewrite N_ascii_embedding by lia. lia.
Qed.

Lemma char_to_index_letter_of i : 0 ≤ i < 26 → char_to_index (letter_of i) = i.
Proof. intros Hi. unfold char_to_index. rewrite ord_letter_of, ord_A by done. lia. Qed.

Lemma letter_of_inj i j :
  0 ≤ i < 26 → 0 ≤ j < 26 → letter_of i = letter_of j → i = j.
Proof.
  intros Hi Hj Heq. apply (f_equal char_to_index) in Heq.
  by rewrite !char_to_index_letter_of in Heq.
Qed.

Lemma index_to_char_letter_of i :
  0 ≤ i < 26 → index_to_char i = Ok (letter_of i).
Proof.
  intros Hi. unfold index_to_char, chr, letter_of. rewrite ord_A.
  rewrite bool_decide_true by lia. done.
Qed.

Lemma letters_fmap : letters = letter_of <$> seqZ 0 26.
Proof. reflexivity. Qed.

Lemma elem_of_letters c :
  c ∈ letters ↔ ∃ i, 0 ≤ i < 26 ∧ c = letter_of i.
Proof.
  rewrite letters_fmap, list_elem_of_fmap. split.
  - intros (i & -> & Hi). apply elem_of_seqZ in Hi. exists i. split; [lia|done].
  - intros (i & Hi & ->). exists i. split; [done|]. apply elem_of_seqZ. lia.
Qed.

Lemma NoDup_letters : NoDup letters.
Proof. apply (bool_decide_unpack _). run. Qed.

Lemma uppercase_getitem i :
  0 ≤ i < 26 → str_getitem ascii_uppercase i = Ok (letter_of i).
Proof. revert i. each_index; run. Qed.

Lemma plugboard_letter i :
  0 ≤ i < 26 → plugboard_map !! letter_of i = Some (letter_of i).
Proof. revert i. each_index; run. Qed.

Lemma dict_of_lookup_None `{Countable K} {V} (entries : list (K * V)) k :
  k ∉ entries.*1 → dict_of entries !! k = None.
Proof.
  unfold dict_of. generalize (∅ : gmap K V) (lookup_empty (M:=gmap K) (A:=V) k).
  induction entries as [|[k' v] entries IH]; intros d Hd Hk; [done|].
  simpl in *. apply IH.
  - rewrite lookup_insert_ne; [done|]. intros ->. apply Hk. left.
  - intros Hin. apply Hk. by right.
Qed.

Lemma dict_getitem_Some `{Countable K} {V} show (d : gmap K V) k v :
  d !! k = Some v → dict_getitem show d k = Ok v.
Proof. intros Hk. unfold dict_getitem. by rewrite Hk. Qed.

Lemma dict_getitem_None `{Countable K} {V} show (d : gmap K V) k :
  d !! k = None → dict_getitem show d k = Raise (KeyError (show k)).
Proof. intros Hk. unfold dict_getitem. by rewrite Hk. Qed.

Lemma plugboard_getitem i :
  0 ≤ i < 26 → dict_getitem show_char plugboard_map (letter_of i) = Ok (letter_of i).
Proof. intros Hi. by apply dict_getitem_Some, plugboard_letter. Qed.

Lemma plugboard_other c : c ∉ letters → plugboard_map !! c = None.
Proof.
  intros Hc. apply dict_of_lookup_None.
  rewrite <- list_fmap_compose. by rewrite list_fmap_id.
Qed.

(** ** Rotor wirings are permutations of the alphabet *)

(** Index of the letter that wiring [w] holds at position [k], and the
    position at which [w] holds the letter of index [j]. *)
Definition wire (w : string) (k : Z) : Z :=
  match str_getitem w k with Ok c => char_to_index c | _ => 0 end.

Definition unwire (w : string) (j : Z) : Z :=
  match str_index w (letter_of j) with Ok k => k | _ => 0 end.

Record wiring_ok (w : string) : Prop := {
  wire_get k : 0 ≤ k < 26 → str_getitem w k = Ok (letter_of (wire w k));
  wire_range k : 0 ≤ k < 26 → 0 ≤ wire w k < 26;
  unwire_index j : 0 ≤ j < 26 → str_index w (letter_of j) = Ok (unwire w j);
  unwire_range j : 0 ≤ j < 26 → 0 ≤ unwire w j < 26;
  unwire_wire k : 0 ≤ k < 26 → unwire w (wire w k) = k;
  wire_unwire j : 0 ≤ j < 26 → wire w (unwire w j) = j
}.

Ltac wiring_by_cases :=
  split; intros i; revert i; each_index; apply (bool_decide_unpack _); run.

Lemma wiring_I_ok : wiring_ok "EKMFLGDQVZNTOWYHXUSPAIBRCJ".
Proof. wiring_by_cases. Qed.

Lemma wiring_II_ok : wiring_ok "AJDKSIRUXBLHWTMCQGZNPYFVOE".
Proof. wiring_by_cases. Qed.

Lemma wiring_III_ok : wiring_ok "BDFHJLCPRTXVZNYEIWGAKMUSQO".
Proof. wiring_by_cases. Qed.

Lemma catalog_wiring rotor :
  rotor ∈ rotor_options →
  ∃ w, rotor_wiring !! rotor = Some w ∧ wiring_ok w.
Proof.
  unfold rotor_options. rewrite !elem_of_cons, elem_of_nil.
  intros [->|[->|[->|[]]]]; eexists; (split; [run|]).
  - apply wiring_I_ok.
  - apply wiring_II_ok.
  - apply wiring_III_ok.
Qed.

Lemma catalog_notch rotor :
  rotor ∈ rotor_options →
  ∃ m, 0 ≤ m < 26 ∧ rotor_notch !! rotor = Some (letter_of m).
Proof.
  unfold rotor_options. rewrite !elem_of_cons, elem_of_nil.
  intros [->|[->|[->|[]]]].
  - exists 16. split; [lia|run].
  - exists 4. split; [lia|run].
  - exists 21. split; [lia|run].
Qed.

(** The two substitutions as arithmetic on indices. *)
Definition fwd (w : string) (offset x : Z) : Z :=
  (wire w ((x + offset) mod 26) - offset) mod 26.

Definition bwd (w : string) (offset y : Z) : Z :=
  (unwire w ((y + offset) mod 26) - offset) mod 26.

Section substitution.
Context (w : string) (Hw : wiring_ok w).

Lemma forward_substitute_fwd x offset :
  forward_substitute w x offset = Ok (fwd w offset x).
Proof.
  unfold forward_substitute, fwd.
  assert (0 ≤ (x + offset) mod 26 < 26) as Hk by (apply Z.mod_pos_bound; lia).
  rewrite (wire_get w Hw) by done. rewrite bind_Ok.
  rewrite char_to_index_letter_of by (by apply (wire_range w Hw)). done.
Qed.

Lemma backward_substitute_bwd y offset :
  backward_substitute w y offset = Ok (bwd w offset y).
Proof.
  unfold backward_substitute, bwd.
  assert (0 ≤ (y + offset) mod 26 < 26) as Hk by (apply Z.mod_pos_bound; lia).
  fold (index_to_char ((y + offset) mod 26)).
  rewrite index_to_char_letter_of by done. rewrite bind_Ok.
  rewrite (unwire_index w Hw) by done. done.
Qed.

Lemma fwd_range offset x : 0 ≤ fwd w offset x < 26.
Proof. apply Z.mod_pos_bound. lia. Qed.

Lemma bwd_range offset y : 0 ≤ bwd w offset y < 26.
Proof. apply Z.mod_pos_bound. lia. Qed.

Lemma bwd_fwd offset x : 0 ≤ x < 26 → bwd w offset (fwd w offset x) = x.
Proof.
  intros Hx. unfold bwd, fwd.
  assert (0 ≤ (x + offset) mod 26 < 26) as Hk by (apply Z.mod_pos_bound; lia).
  pose proof (wire_range w Hw _ Hk) as Hr.
  rewrite Zplus_mod_idemp_l.
  replace (wire w ((x + offset) mod 26) - offset + offset)
    with (wire w ((x + offset) mod 26)) by lia.
  rewrite (Z.mod_small (wire _ _)) by done.
  rewrite (unwire_wire w Hw) by done.
  rewrite Zminus_mod_idemp_l.
  replace (x + offset - offset) with x by lia. by apply Z.mod_small.
Qed.

Lemma fwd_bwd offset y : 0 ≤ y < 26 → fwd w offset (bwd w offset y) = y.
Proof.
  intros Hy. unfold bwd, fwd.
  assert (0 ≤ (y + offset) mod 26 < 26) as Hk by (apply Z.mod_pos_bound; lia).
  pose proof (unwire_range w Hw _ Hk) as Hr.
  rewrite Zplus_mod_idemp_l.
  replace (unwire w ((y + offset) mod 26) - offset + offset)
    with (unwire w ((y + offset) mod 26)) by lia.
  rewrite (Z.mod_small (unwire _ _)) by done.
  rewrite (wire_unwire w Hw) by done.
  rewrite Zminus_mod_idemp_l.
  replace (y + offset - offset) with y by lia. by apply Z.mod_small.
Qed.
End substitution.

(** ** The embedded reflectors *)

(** Index of the letter that table [t] pairs with the letter of index [j]. *)
Definition reflect (t : gmap ascii ascii) (j : Z) : Z :=
  match t !! letter_of j with Some c => char_to_index c | None => 0 end.

Record reflector_ok (t : gmap ascii ascii) : Prop := {
  reflect_lookup j :
    0 ≤ j < 26 → t !! letter_of j = Some (letter_of (reflect t j));
  reflect_range j : 0 ≤ j < 26 → 0 ≤ reflect t j < 26;
  reflect_involutive j : 0 ≤ j < 26 → reflect t (reflect t j) = j;
  reflect_no_fixpoint j : 0 ≤ j < 26 → reflect t j ≠ j
}.

Lemma reflector_A_ok : reflector_ok reflector_A.
Proof. wiring_by_cases. Qed.

Lemma reflector_B_ok : reflector_ok reflector_B.
Proof. wiring_by_cases. Qed.

Lemma catalog_reflector reflector_type :
  reflector_type ∈ reflector_options →
  ∃ t, reflector_wiring !! reflector_type = Some t ∧ reflector_ok t.
Proof.
  unfold reflector_options. rewrite !elem_of_cons, elem_of_nil.
  intros [->|[->|[]]]; unfold reflector_wiring, dict_of; simpl.
  - exists reflector_A. split; [|apply reflector_A_ok].
    rewrite lookup_insert_ne by done. apply lookup_insert_eq.
  - exists reflector_B. split; [|apply reflector_B_ok].
    apply lookup_insert_eq.
Qed.

(** ** Stepping *)

Lemma at_notch_spec pos rotor m :
  0 ≤ pos < 26 → 0 ≤ m < 26 → rotor_notch !! rotor = Some (letter_of m) →
  at_notch pos rotor = Ok (bool_decide (pos = m)).
Proof.
  intros Hpos Hm Hnotch. unfold at_notch, dict_getitem.
  rewrite uppercase_getitem, bind_Ok, Hnotch, bind_Ok by done. f_equal.
  case_bool_decide as Heq.
  - subst. apply Ascii.eqb_refl.
  - apply Ascii.eqb_neq. intros Hl. by apply Heq, letter_of_inj.
Qed.

(** The positions after one press, for notch indices [m] (middle rotor) and
    [r] (right rotor). *)
Definition stepped (m r : Z) (p : Z * Z * Z) : Z * Z * Z :=
  let '(pos_left, pos_mid, pos_right) := p in
  (if bool_decide (pos_mid = m) then (pos_left + 1) mod 26 else pos_left,
   if bool_decide (pos_right = r ∨ pos_mid = m) then (pos_mid + 1) mod 26
   else pos_mid,
   (pos_right + 1) mod 26).

Definition in_range (p : Z * Z * Z) : Prop :=
  let '(pos_left, pos_mid, pos_right) := p in
  0 ≤ pos_left < 26 ∧ 0 ≤ pos_mid < 26 ∧ 0 ≤ pos_right < 26.

Lemma step_rotors_spec left_rotor mid_rotor right_rotor m r p :
  in_range p → 0 ≤ m < 26 → 0 ≤ r < 26 →
  rotor_notch !! mid_rotor = Some (letter_of m) →
  rotor_notch !! right_rotor = Some (letter_of r) →
  step_rotors (left_rotor, mid_rotor, right_rotor) p = Ok (stepped m r p).
Proof.
  destruct p as [[pl pm] pr]. intros (Hl & Hm' & Hr') Hm Hr Hnm Hnr.
  unfold step_rotors, stepped.
  rewrite (at_notch_spec pm mid_rotor m), bind_Ok by done.
  rewrite (at_notch_spec pr right_rotor r), bind_Ok by done.
  destruct (bool_decide (pr = r)) eqn:Er.
  - rewrite bind_Ok. apply bool_decide_eq_true in Er.
    rewrite (bool_decide_true (_ ∨ _)) by auto. done.
  - rewrite bind_Ok. apply bool_decide_eq_false in Er.
    destruct (bool_decide (pm = m)) eqn:Em.
    + apply bool_decide_eq_true in Em.
      rewrite (bool_decide_true (_ ∨ _)) by auto. done.
    + apply bool_decide_eq_false in Em.
      rewrite (bool_decide_false (_ ∨ _)) by tauto. done.
Qed.

Lemma stepped_in_range m r p : in_range p → in_range (stepped m r p).
Proof.
  destruct p as [[pl pm] pr]. intros (Hl & Hm & Hr). unfold stepped, in_range.
  pose proof (Z.mod_pos_bound (pl + 1) 26). pose proof (Z.mod_pos_bound (pm + 1) 26).
  pose proof (Z.mod_pos_bound (pr + 1) 26).
  repeat case_bool_decide; lia.
Qed.

(** ** One press as arithmetic on indices *)

Definition through (wl wm wr : string) (p : Z * Z * Z) (x : Z) : Z :=
  let '(pos_left, pos_mid, pos_right) := p in
  fwd wl pos_left (fwd wm pos_mid (fwd wr pos_right x)).

Definition back (wl wm wr : string) (p : Z * Z * Z) (y : Z) : Z :=
  let '(pos_left, pos_mid, pos_right) := p in
  bwd wr pos_right (bwd wm pos_mid (bwd wl pos_left y)).

Section press.
Context (left_rotor mid_rotor right_rotor wl wm wr : string).
Context (Hl : rotor_wiring !! left_rotor = Some wl) (Hwl : wiring_ok wl).
Context (Hm : rotor_wiring !! mid_rotor = Some wm) (Hwm : wiring_ok wm).
Context (Hr : rotor_wiring !! right_rotor = Some wr) (Hwr : wiring_ok wr).

Lemma through_range p x : 0 ≤ through wl wm wr p x < 26.
Proof. destruct p as [[pl pm] pr]. apply Z.mod_pos_bound. lia. Qed.

Lemma back_range p y : 0 ≤ back wl wm wr p y < 26.
Proof. destruct p as [[pl pm] pr]. apply Z.mod_pos_bound. lia. Qed.

Lemma back_through p x : 0 ≤ x < 26 → back wl wm wr p (through wl wm wr p x) = x.
Proof.
  destruct p as [[pl pm] pr]. intros Hx. unfold back, through.
  rewrite !bwd_fwd; auto using fwd_range.
Qed.

Lemma through_back p y : 0 ≤ y < 26 → through wl wm wr p (back wl wm wr p y) = y.
Proof.
  destruct p as [[pl pm] pr]. intros Hy. unfold back, through.
  rewrite !fwd_bwd; auto using bwd_range.
Qed.

(** What [encrypt_letter] computes once the rotors have stepped to [p'],
    whatever table [t] is installed under [reflector_type]. *)
Lemma encrypt_letter_with_spec reflectors reflector_type t p p' x :
  step_rotors (left_rotor, mid_rotor, right_rotor) p = Ok p' →
  reflectors !! reflector_type = Some t →
  0 ≤ x < 26 →
  encrypt_letter_with reflectors (letter_of x)
    (left_rotor, mid_rotor, right_rotor) p reflector_type =
  match t !! letter_of (through wl wm wr p' x) with
  | Some c => Ok (letter_of (back wl wm wr p' (char_to_index c)), p')
  | None => Raise (KeyError (show_char (letter_of (through wl wm wr p' x))))
  end.
Proof.
  intros Hstep Ht Hx. unfold encrypt_letter_with.
  rewrite Hstep, bind_Ok. destruct p' as [[pl pm] pr]. cbv beta iota.
  rewrite plugboard_getitem, bind_Ok by done.
  rewrite char_to_index_letter_of by done.
  rewrite (dict_getitem_Some _ _ _ _ Hr), bind_Ok.
  rewrite forward_substitute_fwd, bind_Ok by done.
  rewrite index_to_char_letter_of, bind_Ok by (by apply fwd_range).
  rewrite char_to_index_letter_of by (by apply fwd_range).
  rewrite (dict_getitem_Some _ _ _ _ Hm), bind_Ok.
  rewrite forward_substitute_fwd, bind_Ok by done.
  rewrite index_to_char_letter_of, bind_Ok by (by apply fwd_range).
  rewrite char_to_index_letter_of by (by apply fwd_range).
  rewrite (dict_getitem_Some _ _ _ _ Hl), bind_Ok.
  rewrite forward_substitute_fwd, bind_Ok by done.
  rewrite index_to_char_letter_of, bind_Ok by (by apply fwd_range).
  rewrite (dict_getitem_Some _ _ _ _ Ht), bind_Ok.
  unfold through, back.
  destruct (t !! _) as [c|] eqn:Hc;
    [rewrite (dict_getitem_Some _ _ _ _ Hc)
    |by rewrite (dict_getitem_None _ _ _ Hc)].
  rewrite !bind_Ok.
  rewrite backward_substitute_bwd, bind_Ok by done.
  rewrite uppercase_getitem, !bind_Ok by (by apply bwd_range).
  fold (char_to_index (letter_of (bwd wl pl (char_to_index c)))).
  rewrite char_to_index_letter_of by (by apply bwd_range).
  rewrite backward_substitute_bwd, bind_Ok by done.
  rewrite uppercase_getitem, !bind_Ok by (by apply bwd_range).
  fold (char_to_index (letter_of (bwd wm pm (bwd wl pl (char_to_index c))))).
  rewrite char_to_index_letter_of by (by apply bwd_range).
  rewrite backward_substitute_bwd, bind_Ok by done.
  rewrite uppercase_getitem, bind_Ok by (by apply bwd_range).
  rewrite plugboard_getitem, bind_Ok by (by apply bwd_range).
  done.
Qed.
End press.

(** ** Lists of lists without repetition *)

Lemma elem_of_concat {A} (x : A) (ls : list (list A)) :
  x ∈ concat ls ↔ ∃ l, x ∈ l ∧ l ∈ ls.
Proof.
  induction ls as [|l' ls IH]; simpl.
  - rewrite elem_of_nil. split; [done|]. intros (l & _ & Hl).
    by apply elem_of_nil in Hl.
  - rewrite elem_of_app, IH. split.
    + intros [Hx|(l & Hx & Hl)]; [exists l'|exists l]; split; auto; by constructor.
    + intros (l & Hx & [->|Hl]%elem_of_cons); [by left|right; eauto].
Qed.

Lemma NoDup_concat_unique {A} (ls : list (list A)) i j l1 l2 x :
  NoDup (concat ls) → ls !! i = Some l1 → ls !! j = Some l2 →
  x ∈ l1 → x ∈ l2 → i = j.
Proof.
  revert i j. induction ls as [|l ls IH]; intros i j Hnd Hi Hj H1 H2.
  { by rewrite lookup_nil in Hi. }
  simpl in Hnd. apply NoDup_app in Hnd as (Hl & Hdisj & Hrest).
  assert (∀ k l', ls !! k = Some l' → x ∈ l' → x ∈ concat ls) as Hin.
  { intros k l' Hk Hx. apply elem_of_concat. exists l'. split; [done|].
    by apply list_elem_of_lookup_2 in Hk. }
  destruct i as [|i], j as [|j]; simpl in *; simplify_eq.
  - done.
  - exfalso. eapply Hdisj; eauto.
  - exfalso. eapply Hdisj; eauto.
  - f_equal. eauto.
Qed.

(** ** The machine with the embedded tables *)

Section machine.
Context (left_rotor mid_rotor right_rotor wl wm wr : string).
Context (Hl : rotor_wiring !! left_rotor = Some wl) (Hwl : wiring_ok wl).
Context (Hm : rotor_wiring !! mid_rotor = Some wm) (Hwm : wiring_ok wm).
Context (Hr : rotor_wiring !! right_rotor = Some wr) (Hwr : wiring_ok wr).
Context (nm nr : Z) (Hnm : 0 ≤ nm < 26) (Hnr : 0 ≤ nr < 26).
Context (Hmn : rotor_notch !! mid_rotor = Some (letter_of nm)).
Context (Hrn : rotor_notch !! right_rotor = Some (letter_of nr)).
Context (reflector_type : string) (t : gmap ascii ascii).
Context (Ht : reflector_wiring !! reflector_type = Some t).
Context (Hok : reflector_ok t).

Let rotor_order := (left_rotor, mid_rotor, right_rotor).

(** The substitution of the machine standing at positions [p']. *)
Definition cipher (p' : Z * Z * Z) (x : Z) : Z :=
  back wl wm wr p' (reflect t (through wl wm wr p' x)).

Lemma cipher_range p' x : 0 ≤ cipher p' x < 26.
Proof. unfold cipher. apply back_range. Qed.

Lemma cipher_involutive p' x : 0 ≤ x < 26 → cipher p' (cipher p' x) = x.
Proof.
  intros Hx. unfold cipher.
  pose proof (through_range wl wm wr p' x) as Hy.
  rewrite through_back by (done || by apply (reflect_range t Hok)).
  rewrite (reflect_involutive t Hok) by done.
  by apply back_through.
Qed.

Lemma cipher_no_fixpoint p' x : 0 ≤ x < 26 → cipher p' x ≠ x.
Proof.
  intros Hx Heq. unfold cipher in Heq.
  pose proof (through_range wl wm wr p' x) as Hy.
  apply (f_equal (through wl wm wr p')) in Heq.
  rewrite through_back in Heq by (done || by apply (reflect_range t Hok)).
  by apply (reflect_no_fixpoint t Hok) in Heq.
Qed.

Lemma encrypt_letter_cipher p x :
  in_range p → 0 ≤ x < 26 →
  encrypt_letter (letter_of x) rotor_order p reflector_type =
  Ok (letter_of (cipher (stepped nm nr p) x), stepped nm nr p).
Proof.
  intros Hp Hx. unfold encrypt_letter, rotor_order.
  rewrite (encrypt_letter_with_spec _ _ _ wl wm wr Hl Hwl Hm Hwm Hr Hwr
             _ _ t p (stepped nm nr p) x); [|by apply step_rotors_spec|done..].
  pose proof (through_range wl wm wr (stepped nm nr p) x) as Hy.
  rewrite (reflect_lookup t Hok) by done.
  rewrite char_to_index_letter_of by (by apply (reflect_range t Hok)). done.
Qed.

(** *** The indicator mapping of [get_cycle_structure] *)

(** Where the rotors stand when the fourth press substitutes. *)
Definition fourth (p : Z * Z * Z) : Z * Z * Z :=
  stepped nm nr (stepped nm nr (stepped nm nr (stepped nm nr p))).

Definition mapping (p : Z * Z * Z) (c : ascii) : ascii :=
  letter_of (cipher (fourth p) (char_to_index c)).

Lemma mapping_letter p c : mapping p c ∈ letters.
Proof. apply elem_of_letters. eexists. split; [apply cipher_range|done]. Qed.

Lemma mapping_involutive p c : c ∈ letters → mapping p (mapping p c) = c.
Proof.
  intros (x & Hx & ->)%elem_of_letters. unfold mapping.
  rewrite !char_to_index_letter_of by (done || apply cipher_range).
  by rewrite cipher_involutive.
Qed.

Lemma mapping_no_fixpoint p c : c ∈ letters → mapping p c ≠ c.
Proof.
  intros (x & Hx & ->)%elem_of_letters. unfold mapping.
  rewrite char_to_index_letter_of by done. intros Heq.
  apply letter_of_inj in Heq; [|apply cipher_range|done].
  by apply cipher_no_fixpoint in Heq.
Qed.

(** The four presses of lines 123-136, from the same [start_positions]. *)
Lemma four_presses p c :
  in_range p → c ∈ letters →
  ∃ c1 p1 c2 p2 c3 p3 p4,
    encrypt_letter c rotor_order p reflector_type = Ok (c1, p1) ∧
    encrypt_letter "A" rotor_order p1 reflector_type = Ok (c2, p2) ∧
    encrypt_letter "A" rotor_order p2 reflector_type = Ok (c3, p3) ∧
    encrypt_letter c rotor_order p3 reflector_type = Ok (mapping p c, p4).
Proof.
  intros Hp (x & Hx & ->)%elem_of_letters.
  pose proof (stepped_in_range nm nr _ Hp) as Hp1.
  pose proof (stepped_in_range nm nr _ Hp1) as Hp2.
  pose proof (stepped_in_range nm nr _ Hp2) as Hp3.
  change "A"%char with (letter_of 0).
  do 7 eexists. split_and!.
  - by apply encrypt_letter_cipher.
  - apply encrypt_letter_cipher; [done|lia].
  - apply encrypt_letter_cipher; [done|lia].
  - rewrite encrypt_letter_cipher by done.
    unfold mapping, fourth. by rewrite char_to_index_letter_of.
Qed.

(** *** The loops of [get_cycle_structure] *)

(** The letters of all cycles in order, each cycle without its closing
    repeat ([cyc[:-1]]). *)
Definition bodies (cycles : list (list ascii)) : list ascii :=
  concat ((λ cyc, removelast cyc) <$> cycles).

(** One iteration of the [while True] loop. *)
Lemma cycle_loop_step fuel p start_letter c cycle seen :
  in_range p → c ∈ letters →
  cycle_loop (S fuel) rotor_order p reflector_type start_letter c cycle seen =
  if bool_decide (mapping p c = start_letter) then
    Ok ((cycle ++ [c]) ++ [mapping p c], {[c]} ∪ seen)
  else
    cycle_loop fuel rotor_order p reflector_type start_letter (mapping p c)
      (cycle ++ [c]) ({[c]} ∪ seen).
Proof.
  intros Hp Hc.
  destruct (four_presses p c Hp Hc)
    as (c1 & [[l1 m1] r1] & c2 & [[l2 m2] r2] & c3 & [[l3 m3] r3] & p4
        & H1 & H2 & H3 & H4).
  cbn [cycle_loop]. fold rotor_order.
  rewrite H1, bind_Ok. cbv beta iota.
  rewrite H2, bind_Ok. cbv beta iota.
  rewrite H3, bind_Ok. cbv beta iota.
  rewrite H4, bind_Ok. done.
Qed.

(** Every cycle closes after two iterations. *)
Lemma cycle_loop_pair fuel p a seen :
  in_range p → a ∈ letters →
  cycle_loop (S (S fuel)) rotor_order p reflector_type a a [] seen =
  Ok ([a; mapping p a; a], {[mapping p a]} ∪ ({[a]} ∪ seen)).
Proof.
  intros Hp Ha. rewrite cycle_loop_step by done.
  rewrite bool_decide_false by (by apply mapping_no_fixpoint).
  rewrite cycle_loop_step by (done || apply mapping_letter).
  rewrite mapping_involutive by done.
  by rewrite bool_decide_true.
Qed.

(** What holds of [cycles] and [seen] between two iterations of the [for]
    loop. *)
Record loop_inv (p : Z * Z * Z) (cycles : list (list ascii))
    (seen : gset ascii) : Prop := {
  inv_letters c : c ∈ seen → c ∈ letters;
  inv_closed c : c ∈ seen → mapping p c ∈ seen;
  inv_shape cyc :
    cyc ∈ cycles → ∃ a, a ∈ letters ∧ cyc = [a; mapping p a; a];
  inv_nodup : NoDup (bodies cycles);
  inv_seen c : c ∈ bodies cycles ↔ c ∈ seen
}.

Lemma loop_inv_init p : loop_inv p [] ∅.
Proof.
  split.
  - intros c Hc. by apply not_elem_of_empty in Hc.
  - intros c Hc. by apply not_elem_of_empty in Hc.
  - intros cyc Hcyc. by apply elem_of_nil in Hcyc.
  - apply NoDup_nil_2.
  - intros c. unfold bodies. simpl. rewrite elem_of_nil. split; [done|].
    apply not_elem_of_empty.
Qed.

Lemma loop_inv_extend p cycles seen a :
  loop_inv p cycles seen → a ∈ letters → a ∉ seen →
  loop_inv p (cycles ++ [[a; mapping p a; a]])
    ({[mapping p a]} ∪ ({[a]} ∪ seen)).
Proof.
  intros [Hlet Hcl Hsh Hnd Hseen] Ha Hna.
  assert (mapping p a ∉ seen) as Hnb.
  { intros Hb. apply Hcl in Hb. by rewrite mapping_involutive in Hb. }
  assert (bodies (cycles ++ [[a; mapping p a; a]])
          = bodies cycles ++ [a; mapping p a]) as Hcat.
  { unfold bodies. by rewrite fmap_app, concat_app. }
  split.
  - intros c. rewrite !elem_of_union, !elem_of_singleton.
    intros [->|[->|Hc]]; auto using mapping_letter.
  - intros c. rewrite !elem_of_union, !elem_of_singleton.
    intros [Hc|[Hc|Hc]]; subst; auto.
    right; left. by apply mapping_involutive.
  - intros cyc [Hcyc|Hcyc]%elem_of_app; [by apply Hsh|].
    apply list_elem_of_singleton in Hcyc as ->. eauto.
  - rewrite Hcat. apply NoDup_app. split_and!; [done| |].
    + intros c Hc%Hseen. rewrite !elem_of_cons, elem_of_nil.
      intros [->|[->|[]]]; done.
    + apply NoDup_cons. split; [|apply NoDup_singleton].
      rewrite list_elem_of_singleton. intros Heq.
      by apply (mapping_no_fixpoint p a).
  - intros c. rewrite Hcat, elem_of_app, Hseen.
    rewrite !elem_of_cons, elem_of_nil, !elem_of_union, !elem_of_singleton.
    tauto.
Qed.

Lemma for_letters_inv fuel p ls cycles seen :
  in_range p → (∀ c, c ∈ ls → c ∈ letters) → loop_inv p cycles seen →
  ∃ cycles' seen',
    for_letters (S (S fuel)) rotor_order p reflector_type ls cycles seen
      = Ok cycles' ∧
    loop_inv p cycles' seen' ∧ (∀ c, c ∈ ls → c ∈ seen') ∧
    (∀ c, c ∈ seen → c ∈ seen').
Proof.
  intros Hp. revert cycles seen.
  induction ls as [|a ls for_letters_grow]; intros cycles seen Hls Hinv.
  - exists cycles, seen. split_and!; [done..| |done]. intros c Hc.
    by apply elem_of_nil in Hc.
  - assert (∀ c, c ∈ ls → c ∈ letters) as Hls' by (intros; apply Hls; by right).
    assert (a ∈ letters) as Ha by (apply Hls; left).
    cbn [for_letters]. fold rotor_order. case_bool_decide as Hin.
    + destruct (for_letters_grow cycles seen Hls' Hinv)
        as (cycles' & seen' & Hrun & Hinv' & Hall & Hsub).
      exists cycles', seen'. split_and!; [done..| |done].
      intros c [->|Hc]%elem_of_cons; [by apply Hsub|by apply Hall].
    + rewrite cycle_loop_pair, bind_Ok by done. cbv beta iota.
      destruct (for_letters_grow (cycles ++ [[a; mapping p a; a]])
                  ({[mapping p a]} ∪ ({[a]} ∪ seen)) Hls')
        as (cycles' & seen' & Hrun & Hinv' & Hall & Hsub).
      { by apply loop_inv_extend. }
      exists cycles', seen'. split_and!; [done..| |].
      * intros c [->|Hc]%elem_of_cons; [|by apply Hall].
        apply Hsub. rewrite !elem_of_union, !elem_of_singleton. auto.
      * intros c Hc. apply Hsub.
        rewrite !elem_of_union, !elem_of_singleton. auto.
Qed.

Lemma get_cycle_structure_inv fuel p :
  in_range p →
  ∃ cycles seen,
    get_cycle_structure (S (S fuel)) rotor_order p reflector_type
      = Ok cycles ∧
    loop_inv p cycles seen ∧ (∀ c, c ∈ letters → c ∈ seen).
Proof.
  intros Hp. unfold get_cycle_structure. fold letters.
  destruct (for_letters_inv fuel p letters [] ∅ Hp) as
    (cycles & seen & Hrun & Hinv & Hall & _); [done|apply loop_inv_init|].
  by exists cycles, seen.
Qed.

(** The cycles partition the alphabet. *)
Lemma cycle_structure_partition fuel p :
  in_range p →
  ∃ cycles,
    get_cycle_structure (S (S fuel)) rotor_order p reflector_type
      = Ok cycles ∧
    (∀ cyc, cyc ∈ cycles → ∃ a body, cyc = a :: body ++ [a]) ∧
    bodies cycles ≡ₚ letters ∧
    (∀ c, c ∈ letters →
       ∃ i cyc, cycles !! i = Some cyc ∧ c ∈ cyc ∧
         ∀ j cyc', cycles !! j = Some cyc' → c ∈ cyc' → j = i) ∧
    sum_list ((λ cyc, length cyc - 1)%nat <$> cycles) = 26%nat.
Proof.
  intros Hp.
  destruct (get_cycle_structure_inv fuel p Hp)
    as (cycles & seen & Hrun & [Hlet Hcl Hsh Hnd Hseen] & Hall).
  assert (bodies cycles ≡ₚ letters) as Hperm.
  { apply NoDup_Permutation; [done|apply NoDup_letters|].
    intros c. rewrite Hseen. split; auto. }
  assert (∀ cyc c, cyc ∈ cycles → c ∈ cyc → c ∈ removelast cyc) as Hbody.
  { intros cyc c (a & _ & ->)%Hsh. simpl.
    rewrite !elem_of_cons, elem_of_nil. intros [->|[->|[->|[]]]]; auto. }
  exists cycles. split_and!; [done| |done| |].
  - intros cyc (a & _ & ->)%Hsh. by exists a, [mapping p a].
  - intros c Hc. apply Hall, Hseen in Hc.
    apply elem_of_concat in Hc as (body & Hcb & Hb).
    apply list_elem_of_fmap in Hb as (cyc & -> & Hcyc).
    apply list_elem_of_lookup in Hcyc as [i Hi].
    exists i, cyc. split_and!; [done| |].
    + destruct (Hsh cyc) as (a & _ & ->);
        [by eapply list_elem_of_lookup_2|].
      simpl in Hcb. apply elem_of_cons in Hcb as [->|Hcb]; [left|].
      apply list_elem_of_singleton in Hcb as ->. right; left.
    + intros j cyc' Hj Hc'.
      eapply (NoDup_concat_unique _ j i (removelast cyc') (removelast cyc) c);
        [exact Hnd|by rewrite list_lookup_fmap, Hj
        |by rewrite list_lookup_fmap, Hi| |done].
      apply Hbody; [by eapply list_elem_of_lookup_2|done].
  - transitivity (length (bodies cycles));
      [|by rewrite (Permutation_length Hperm)].
    clear -Hsh. unfold bodies.
    induction cycles as [|cyc cycles IH]; [done|].
    rewrite !fmap_cons. cbn [sum_list sum_list_with concat].
    rewrite length_app, <- IH.
    + destruct (Hsh cyc) as (a & _ & ->); [left|]. reflexivity.
    + intros cyc' Hcyc'. apply Hsh. by right.
Qed.

(** Every letter is followed, in its cycle, by the output of its four
    presses, and consecutive letters of a cycle are related by nothing else. *)
Lemma cycle_structure_presses fuel p :
  in_range p →
  ∃ cycles,
    get_cycle_structure (S (S fuel)) rotor_order p reflector_type
      = Ok cycles ∧
    (∀ L, L ∈ letters →
       ∃ c1 p1 c2 p2 c3 p3 M p4,
         encrypt_letter L rotor_order p reflector_type = Ok (c1, p1) ∧
         encrypt_letter "A" rotor_order p1 reflector_type = Ok (c2, p2) ∧
         encrypt_letter "A" rotor_order p2 reflector_type = Ok (c3, p3) ∧
         encrypt_letter L rotor_order p3 reflector_type = Ok (M, p4) ∧
         ∃ cyc i, cyc ∈ cycles ∧ cyc !! i = Some L ∧ cyc !! S i = Some M) ∧
    (∀ cyc i x y,
       cyc ∈ cycles → cyc !! i = Some x → cyc !! S i = Some y →
       ∃ c1 p1 c2 p2 c3 p3 p4,
         encrypt_letter x rotor_order p reflector_type = Ok (c1, p1) ∧
         encrypt_letter "A" rotor_order p1 reflector_type = Ok (c2, p2) ∧
         encrypt_letter "A" rotor_order p2 reflector_type = Ok (c3, p3) ∧
         encrypt_letter x rotor_order p3 reflector_type = Ok (y, p4)).
Proof.
  intros Hp.
  destruct (get_cycle_structure_inv fuel p Hp)
    as (cycles & seen & Hrun & [Hlet Hcl Hsh Hnd Hseen] & Hall).
  exists cycles. split_and!; [done| |].
  - intros L HL.
    destruct (four_presses p L Hp HL)
      as (c1 & p1 & c2 & p2 & c3 & p3 & p4 & H1 & H2 & H3 & H4).
    exists c1, p1, c2, p2, c3, p3, (mapping p L), p4.
    split_and!; [done..|].
    apply Hall, Hseen in HL.
    apply elem_of_concat in HL as (body & Hcb & Hb).
    apply list_elem_of_fmap in Hb as (cyc & -> & Hcyc).
    destruct (Hsh cyc Hcyc) as (a & Ha & ->).
    exists [a; mapping p a; a]. cbn [removelast] in Hcb.
    apply elem_of_cons in Hcb as [->|Hcb].
    + by exists 0%nat.
    + apply list_elem_of_singleton in Hcb as ->. exists 1%nat.
      split_and!; [done..|]. cbn [lookup list_lookup].
      by rewrite mapping_involutive.
  - intros cyc i x y (a & Ha & ->)%Hsh Hx Hy.
    destruct i as [|[|[|i]]]; simpl in Hx, Hy; try done.
    + injection Hx as <-. injection Hy as <-. by apply four_presses.
    + injection Hx as <-. injection Hy as <-.
      pose proof (four_presses p (mapping p a) Hp (mapping_letter p a)) as H4.
      by rewrite mapping_involutive in H4.
Qed.
End machine.

(** * The claims *)

(** The alphabet index of a notch letter, as the comparison
    [string.ascii_uppercase[pos] == rotor_notch[rotor]] sees it. *)
Lemma notch_letter_of rotor notch m :
  rotor_notch !! rotor = Some notch → 0 ≤ m < 26 →
  str_getitem ascii_uppercase m = Ok notch →
  rotor_notch !! rotor = Some (letter_of m).
Proof.
  intros Hn Hm Hget. rewrite uppercase_getitem in Hget by done.
  by injection Hget as <-.
Qed.

(** C1. One press moves the rotors by the stepping rule: with [m] and [r] the
    alphabet indices of the notch letters of the middle and the right rotor,
    the left rotor advances iff the middle rotor stood at [m], the middle
    rotor advances iff the right rotor stood at [r] or the middle rotor stood
    at [m] (all tests on the incoming positions), and the right rotor always
    advances, modulo 26. These are the positions [encrypt_letter] returns for
    any letter, and a middle rotor at its notch advances together with the
    left rotor. *)
Theorem stepping_rule left_rotor mid_rotor right_rotor mid_notch right_notch
    m r pos_left pos_mid pos_right :
  left_rotor ∈ rotor_options → mid_rotor ∈ rotor_options →
  right_rotor ∈ rotor_options →
  rotor_notch !! mid_rotor = Some mid_notch →
  rotor_notch !! right_rotor = Some right_notch →
  0 ≤ m < 26 → str_getitem ascii_uppercase m = Ok mid_notch →
  0 ≤ r < 26 → str_getitem ascii_uppercase r = Ok right_notch →
  0 ≤ pos_left < 26 → 0 ≤ pos_mid < 26 → 0 ≤ pos_right < 26 →
  let after :=
    (if bool_decide (pos_mid = m) then (pos_left + 1) mod 26 else pos_left,
     if bool_decide (pos_right = r ∨ pos_mid = m) then (pos_mid + 1) mod 26
     else pos_mid,
     (pos_right + 1) mod 26) in
  step_rotors (left_rotor, mid_rotor, right_rotor)
    (pos_left, pos_mid, pos_right) = Ok after ∧
  (∀ letter reflector_type,
     letter ∈ letters → reflector_type ∈ reflector_options →
     ∃ c, encrypt_letter letter (left_rotor, mid_rotor, right_rotor)
            (pos_left, pos_mid, pos_right) reflector_type = Ok (c, after)) ∧
  (pos_mid = m →
   after = ((pos_left + 1) mod 26, (pos_mid + 1) mod 26, (pos_right + 1) mod 26)).
Proof.
  intros Hleft Hmid Hright Hnm Hnr Hm Hgm Hr Hgr Hpl Hpm Hpr after.
  pose proof (notch_letter_of _ _ _ Hnm Hm Hgm) as Hnm'.
  pose proof (notch_letter_of _ _ _ Hnr Hr Hgr) as Hnr'.
  change after with (stepped m r (pos_left, pos_mid, pos_right)).
  split_and!.
  - by apply step_rotors_spec.
  - intros letter reflector_type (x & Hx & ->)%elem_of_letters Hrefl.
    destruct (catalog_wiring _ Hleft) as (wl & Hl & Hwl).
    destruct (catalog_wiring _ Hmid) as (wm & Hwm1 & Hwm).
    destruct (catalog_wiring _ Hright) as (wr & Hwr1 & Hwr).
    destruct (catalog_reflector _ Hrefl) as (t & Ht & Hok).
    eexists.
    by apply (encrypt_letter_cipher left_rotor mid_rotor right_rotor wl wm wr
                Hl Hwl Hwm1 Hwm Hwr1 Hwr m r Hm Hr Hnm' Hnr' reflector_type t).
  - intros ->. unfold stepped.
    rewrite bool_decide_true by done. by rewrite bool_decide_true by auto.
Qed.

Lemma stepping_rule_witness :
  step_rotors ("I", "II", "III")%string (0, 4, 21) = Ok (1, 5, 22).
Proof.
  apply (stepping_rule "I" "II" "III" "E" "V" 4 21 0 4 21);
    first [ apply (bool_decide_unpack _); vm_compute; reflexivity
          | vm_compute; reflexivity | lia ].
Defined.

(** Discharges the side conditions of a claim at a concrete input. *)
Ltac at_input :=
  first [ lia
        | apply (bool_decide_unpack _); vm_compute; reflexivity
        | vm_compute; reflexivity
        | vm_compute; discriminate ].

(** Everything the machine section needs about a rotor order drawn from
    the catalog and an embedded reflector. *)
Ltac machine_parts Hleft Hmid Hright Hrefl :=
  destruct (catalog_wiring _ Hleft) as (?wl & ?Hl & ?Hwl);
  destruct (catalog_wiring _ Hmid) as (?wm & ?Hm & ?Hwm);
  destruct (catalog_wiring _ Hright) as (?wr & ?Hr & ?Hwr);
  destruct (catalog_notch _ Hmid) as (?nm & ?Hnm & ?Hmn);
  destruct (catalog_notch _ Hright) as (?nr & ?Hnr & ?Hrn);
  destruct (catalog_reflector _ Hrefl) as (?t & ?Ht & ?Hok).

(** C2. For one fixed snapshot of the positions the machine is its own
    inverse: the press that turns [L] into [C] turns [C] into [L] when it is
    started from the same incoming positions. *)
Theorem reciprocity left_rotor mid_rotor right_rotor
    pos_left pos_mid pos_right reflector_type L :
  left_rotor ∈ rotor_options → mid_rotor ∈ rotor_options →
  right_rotor ∈ rotor_options →
  left_rotor ≠ mid_rotor → left_rotor ≠ right_rotor →
  mid_rotor ≠ right_rotor →
  0 ≤ pos_left < 26 → 0 ≤ pos_mid < 26 → 0 ≤ pos_right < 26 →
  reflector_type ∈ reflector_options → L ∈ letters →
  ∃ C positions',
    encrypt_letter L (left_rotor, mid_rotor, right_rotor)
      (pos_left, pos_mid, pos_right) reflector_type = Ok (C, positions') ∧
    encrypt_letter C (left_rotor, mid_rotor, right_rotor)
      (pos_left, pos_mid, pos_right) reflector_type = Ok (L, positions').
Proof.
  intros Hleft Hmid Hright _ _ _ Hpl Hpm Hpr Hrefl (x & Hx & ->)%elem_of_letters.
  machine_parts Hleft Hmid Hright Hrefl.
  pose proof (encrypt_letter_cipher left_rotor mid_rotor right_rotor wl wm wr
                Hl Hwl Hm Hwm Hr Hwr nm nr Hnm Hnr Hmn Hrn reflector_type t
                Ht Hok (pos_left, pos_mid, pos_right)) as Henc.
  set (p' := stepped nm nr (pos_left, pos_mid, pos_right)) in *.
  exists (letter_of (cipher wl wm wr t p' x)), p'. split.
  - by apply Henc.
  - rewrite Henc; [|done|apply cipher_range].
    by rewrite cipher_involutive.
Qed.

Lemma reciprocity_witness :
  ∃ C positions',
    encrypt_letter "A" ("I", "II", "III")%string (0, 0, 0) "B"
      = Ok (C, positions') ∧
    encrypt_letter C ("I", "II", "III")%string (0, 0, 0) "B"
      = Ok ("A"%char, positions').
Proof.
  apply (reciprocity "I" "II" "III" 0 0 0 "B" "A"); at_input.
Defined.

(** C9. No letter is enciphered to itself. *)
Theorem no_letter_to_itself left_rotor mid_rotor right_rotor
    pos_left pos_mid pos_right reflector_type L :
  left_rotor ∈ rotor_options → mid_rotor ∈ rotor_options →
  right_rotor ∈ rotor_options →
  left_rotor ≠ mid_rotor → left_rotor ≠ right_rotor →
  mid_rotor ≠ right_rotor →
  0 ≤ pos_left < 26 → 0 ≤ pos_mid < 26 → 0 ≤ pos_right < 26 →
  reflector_type ∈ reflector_options → L ∈ letters →
  ∃ C positions',
    encrypt_letter L (left_rotor, mid_rotor, right_rotor)
      (pos_left, pos_mid, pos_right) reflector_type = Ok (C, positions') ∧
    C ≠ L.
Proof.
  intros Hleft Hmid Hright _ _ _ Hpl Hpm Hpr Hrefl (x & Hx & ->)%elem_of_letters.
  machine_parts Hleft Hmid Hright Hrefl.
  pose proof (encrypt_letter_cipher left_rotor mid_rotor right_rotor wl wm wr
                Hl Hwl Hm Hwm Hr Hwr nm nr Hnm Hnr Hmn Hrn reflector_type t
                Ht Hok (pos_left, pos_mid, pos_right)) as Henc.
  set (p' := stepped nm nr (pos_left, pos_mid, pos_right)) in *.
  exists (letter_of (cipher wl wm wr t p' x)), p'. split.
  - by apply Henc.
  - intros Heq. apply letter_of_inj in Heq; [|apply cipher_range|done].
    by apply (cipher_no_fixpoint wl wm wr Hwl Hwm Hwr t Hok) in Heq.
Qed.

Lemma no_letter_to_itself_witness :
  ∃ C positions',
    encrypt_letter "Q" ("III", "I", "II")%string (7, 4, 25) "A"
      = Ok (C, positions') ∧ C ≠ "Q"%char.
Proof.
  apply (no_letter_to_itself "III" "I" "II" 7 4 25 "A" "Q"); at_input.
Defined.

(** C5. For each wiring of the catalog, the backward substitution undoes the
    forward substitution taken at the same offset. *)
Theorem backward_undoes_forward rotor wiring_str letter offset :
  rotor ∈ rotor_options → rotor_wiring !! rotor = Some wiring_str →
  0 ≤ letter < 26 → 0 ≤ offset < 26 →
  ∃ out_idx,
    forward_substitute wiring_str letter offset = Ok out_idx ∧
    backward_substitute wiring_str out_idx offset = Ok letter.
Proof.
  intros Hrotor Hw Hletter _.
  destruct (catalog_wiring _ Hrotor) as (w & Hw' & Hok).
  rewrite Hw in Hw'. injection Hw' as <-.
  exists (fwd wiring_str offset letter). split.
  - by apply forward_substitute_fwd.
  - rewrite backward_substitute_bwd by done. by rewrite bwd_fwd.
Qed.

Lemma backward_undoes_forward_witness :
  ∃ out_idx,
    forward_substitute "AJDKSIRUXBLHWTMCQGZNPYFVOE" 19 23 = Ok out_idx ∧
    backward_substitute "AJDKSIRUXBLHWTMCQGZNPYFVOE" out_idx 23 = Ok 19.
Proof.
  apply (backward_undoes_forward "II" "AJDKSIRUXBLHWTMCQGZNPYFVOE" 19 23);
    at_input.
Defined.

(** C10. A character outside [A..Z] makes [encrypt_letter] raise [KeyError]
    on that character at the plugboard lookup of line 51: nothing is passed
    through and no result is returned. *)
Theorem non_letter_raises letter left_rotor mid_rotor right_rotor
    pos_left pos_mid pos_right reflector_type :
  letter ∉ letters →
  left_rotor ∈ rotor_options → mid_rotor ∈ rotor_options →
  right_rotor ∈ rotor_options →
  0 ≤ pos_left < 26 → 0 ≤ pos_mid < 26 → 0 ≤ pos_right < 26 →
  (∃ positions',
     step_rotors (left_rotor, mid_rotor, right_rotor)
       (pos_left, pos_mid, pos_right) = Ok positions') ∧
  dict_getitem show_char plugboard_map letter
    = Raise (KeyError (show_char letter)) ∧
  encrypt_letter letter (left_rotor, mid_rotor, right_rotor)
    (pos_left, pos_mid, pos_right) reflector_type
    = Raise (KeyError (show_char letter)).
Proof.
  intros Hletter Hleft Hmid Hright Hpl Hpm Hpr.
  destruct (catalog_notch _ Hmid) as (nm & Hnm & Hmn).
  destruct (catalog_notch _ Hright) as (nr & Hnr & Hrn).
  pose proof (step_rotors_spec left_rotor mid_rotor right_rotor nm nr
                (pos_left, pos_mid, pos_right)) as Hstep.
  pose proof (dict_getitem_None show_char plugboard_map letter
                (plugboard_other letter Hletter)) as Hplug.
  split_and!; [eexists; by apply Hstep|done|].
  unfold encrypt_letter, encrypt_letter_with.
  rewrite Hstep, bind_Ok by done.
  destruct (stepped _ _ _) as [[pl pm] pr]. cbv beta iota.
  by rewrite Hplug.
Qed.

Lemma non_letter_raises_witness :
  encrypt_letter "a" ("I", "II", "III")%string (0, 0, 0) "B"
    = Raise (KeyError "a").
Proof.
  apply (non_letter_raises "a" "I" "II" "III" 0 0 0 "B"); at_input.
Defined.

(** C3. The cycles returned by [get_cycle_structure] partition the alphabet:
    the call returns once each [while True] loop may run twice, every cycle
    is a closed loop whose first and last letters are equal, the letters of
    the cycles without their closing repeats are the 26 letters each exactly
    once, every letter lies in exactly one cycle, and the lengths minus one
    add up to 26. *)
Theorem cycle_structure_is_partition fuel left_rotor mid_rotor right_rotor
    pos_left pos_mid pos_right reflector_type :
  (2 ≤ fuel)%nat →
  left_rotor ∈ rotor_options → mid_rotor ∈ rotor_options →
  right_rotor ∈ rotor_options →
  left_rotor ≠ mid_rotor → left_rotor ≠ right_rotor →
  mid_rotor ≠ right_rotor →
  0 ≤ pos_left < 26 → 0 ≤ pos_mid < 26 → 0 ≤ pos_right < 26 →
  reflector_type ∈ reflector_options →
  ∃ cycles,
    get_cycle_structure fuel (left_rotor, mid_rotor, right_rotor)
      (pos_left, pos_mid, pos_right) reflector_type = Ok cycles ∧
    (∀ cyc, cyc ∈ cycles → ∃ a body, cyc = a :: body ++ [a]) ∧
    bodies cycles ≡ₚ letters ∧
    (∀ c, c ∈ letters →
       ∃ i cyc, cycles !! i = Some cyc ∧ c ∈ cyc ∧
         ∀ j cyc', cycles !! j = Some cyc' → c ∈ cyc' → j = i) ∧
    sum_list ((λ cyc, length cyc - 1)%nat <$> cycles) = 26%nat.
Proof.
  intros Hfuel Hleft Hmid Hright _ _ _ Hpl Hpm Hpr Hrefl.
  destruct fuel as [|[|fuel]]; [lia..|].
  machine_parts Hleft Hmid Hright Hrefl.
  by apply (cycle_structure_partition left_rotor mid_rotor right_rotor
              wl wm wr Hl Hwl Hm Hwm Hr Hwr nm nr Hnm Hnr Hmn Hrn
              reflector_type t Ht Hok fuel (pos_left, pos_mid, pos_right)).
Qed.

Lemma cycle_structure_is_partition_witness :
  ∃ cycles,
    get_cycle_structure 2 ("I", "II", "III")%string (0, 0, 0) "B" = Ok cycles ∧
    (∀ cyc, cyc ∈ cycles → ∃ a body, cyc = a :: body ++ [a]) ∧
    bodies cycles ≡ₚ letters ∧
    (∀ c, c ∈ letters →
       ∃ i cyc, cycles !! i = Some cyc ∧ c ∈ cyc ∧
         ∀ j cyc', cycles !! j = Some cyc' → c ∈ cyc' → j = i) ∧
    sum_list ((λ cyc, length cyc - 1)%nat <$> cycles) = 26%nat.
Proof.
  apply (cycle_structure_is_partition 2 "I" "II" "III" 0 0 0 "B"); at_input.
Defined.

(** C4. The indicator mapping of every letter [L] is the output of four
    presses that start from the same [start_positions]: [L] is pressed from
    [start_positions], the dummy letter [A] is pressed twice from the
    positions each press leaves, [L] is pressed again from the positions of
    the third press, and the output [M] of that fourth press is the letter
    that follows [L] in the cycle holding it; the positions the fourth press
    leaves are used nowhere. Conversely every step of every returned cycle
    is such a chain of four presses from [start_positions]. *)
Theorem mapping_is_four_presses fuel left_rotor mid_rotor right_rotor
    pos_left pos_mid pos_right reflector_type :
  (2 ≤ fuel)%nat →
  left_rotor ∈ rotor_options → mid_rotor ∈ rotor_options →
  right_rotor ∈ rotor_options →
  left_rotor ≠ mid_rotor → left_rotor ≠ right_rotor →
  mid_rotor ≠ right_rotor →
  0 ≤ pos_left < 26 → 0 ≤ pos_mid < 26 → 0 ≤ pos_right < 26 →
  reflector_type ∈ reflector_options →
  let rotor_order := (left_rotor, mid_rotor, right_rotor) in
  let start_positions := (pos_left, pos_mid, pos_right) in
  ∃ cycles,
    get_cycle_structure fuel rotor_order start_positions reflector_type
      = Ok cycles ∧
    (∀ L, L ∈ letters →
       ∃ c1 p1 c2 p2 c3 p3 M p4,
         encrypt_letter L rotor_order start_positions reflector_type
           = Ok (c1, p1) ∧
         encrypt_letter "A" rotor_order p1 reflector_type = Ok (c2, p2) ∧
         encrypt_letter "A" rotor_order p2 reflector_type = Ok (c3, p3) ∧
         encrypt_letter L rotor_order p3 reflector_type = Ok (M, p4) ∧
         ∃ cyc i, cyc ∈ cycles ∧ cyc !! i = Some L ∧ cyc !! S i = Some M) ∧
    (∀ cyc i x y,
       cyc ∈ cycles → cyc !! i = Some x → cyc !! S i = Some y →
       ∃ c1 p1 c2 p2 c3 p3 p4,
         encrypt_letter x rotor_order start_positions reflector_type
           = Ok (c1, p1) ∧
         encrypt_letter "A" rotor_order p1 reflector_type = Ok (c2, p2) ∧
         encrypt_letter "A" rotor_order p2 reflector_type = Ok (c3, p3) ∧
         encrypt_letter x rotor_order p3 reflector_type = Ok (y, p4)).
Proof.
  intros Hfuel Hleft Hmid Hright _ _ _ Hpl Hpm Hpr Hrefl.
  destruct fuel as [|[|fuel]]; [lia..|].
  machine_parts Hleft Hmid Hright Hrefl.
  by apply (cycle_structure_presses left_rotor mid_rotor right_rotor
              wl wm wr Hl Hwl Hm Hwm Hr Hwr nm nr Hnm Hnr Hmn Hrn
              reflector_type t Ht Hok fuel (pos_left, pos_mid, pos_right)).
Qed.

Lemma mapping_is_four_presses_witness :
  ∃ cycles,
    get_cycle_structure 5 ("II", "III", "I")%string (3, 21, 16) "A"
      = Ok cycles ∧
    (∀ L, L ∈ letters →
       ∃ c1 p1 c2 p2 c3 p3 M p4,
         encrypt_letter L ("II", "III", "I")%string (3, 21, 16) "A"
           = Ok (c1, p1) ∧
         encrypt_letter "A" ("II", "III", "I")%string p1 "A" = Ok (c2, p2) ∧
         encrypt_letter "A" ("II", "III", "I")%string p2 "A" = Ok (c3, p3) ∧
         encrypt_letter L ("II", "III", "I")%string p3 "A" = Ok (M, p4) ∧
         ∃ cyc i, cyc ∈ cycles ∧ cyc !! i = Some L ∧ cyc !! S i = Some M) ∧
    (∀ cyc i x y,
       cyc ∈ cycles → cyc !! i = Some x → cyc !! S i = Some y →
       ∃ c1 p1 c2 p2 c3 p3 p4,
         encrypt_letter x ("II", "III", "I")%string (3, 21, 16) "A"
           = Ok (c1, p1) ∧
         encrypt_letter "A" ("II", "III", "I")%string p1 "A" = Ok (c2, p2) ∧
         encrypt_letter "A" ("II", "III", "I")%string p2 "A" = Ok (c3, p3) ∧
         encrypt_letter x ("II", "III", "I")%string p3 "A" = Ok (y, p4)).
Proof.
  apply (mapping_is_four_presses 5 "II" "III" "I" 3 21 16 "A"); at_input.
Defined.

(** ** Valid reflector tables *)

(** A table over the alphabet that is involutive and has no fixed point
    (and is therefore a bijection of the alphabet). *)
Definition valid_reflector (table : gmap ascii ascii) : Prop :=
  ∀ c, c ∈ letters →
    ∃ c', table !! c = Some c' ∧ c' ∈ letters ∧ c' ≠ c ∧ table !! c' = Some c.

Lemma reflector_ok_valid table : reflector_ok table → valid_reflector table.
Proof.
  intros Hok c (x & Hx & ->)%elem_of_letters.
  pose proof (reflect_range table Hok x Hx) as Hr.
  exists (letter_of (reflect table x)). split_and!.
  - by apply (reflect_lookup table Hok).
  - apply elem_of_letters. eauto.
  - intros Heq%letter_of_inj; [|done..].
    by apply (reflect_no_fixpoint table Hok) in Heq.
  - rewrite (reflect_lookup table Hok) by done.
    by rewrite (reflect_involutive table Hok).
Qed.

(** ** The reflector constants *)

(** X1. Both embedded reflector tables are involutive and free of fixed
    points on the 26 letters, hence bijections of the alphabet. *)
Lemma embedded_reflectors_valid :
  valid_reflector reflector_A ∧ valid_reflector reflector_B.
Proof.
  split; apply reflector_ok_valid; [apply reflector_A_ok|apply reflector_B_ok].
Qed.

(** Reference strings for the reflectors A and B of the Enigma I, written
    as the images of [A] to [Z] in order. They are written down from memory
    of the literature: neither the repository nor its specification lists
    the published values, and no copy of them was at hand to check these
    strings against. What follows therefore compares the embedded tables
    with these two strings and with nothing else. *)
Definition UKW_A_recalled : string := "EJMZALYXVBWFCRQUONTSPIKHGD".
Definition UKW_B_recalled : string := "YRUHQSLDPXNGOKMIEBFZCWVJAT".

(** Table [B] agrees with [UKW_B_recalled] on every letter. Table [A]
    agrees with [UKW_A_recalled] except at the six letters [N O P Q R U]:
    it pairs [N] with [O] where the recalled string pairs [N] with [R]. *)
Lemma reflectors_against_recalled :
  dict_getitem show_char reflector_A "N"%char = Ok "O"%char ∧
  str_getitem UKW_A_recalled (char_to_index "N"%char) = Ok "R"%char ∧
  filter (λ c, dict_getitem show_char reflector_A c
               ≠ str_getitem UKW_A_recalled (char_to_index c)) letters
    = ["N"; "O"; "P"; "Q"; "R"; "U"]%char ∧
  filter (λ c, dict_getitem show_char reflector_B c
               ≠ str_getitem UKW_B_recalled (char_to_index c)) letters
    = [].
Proof. split_and!; vm_compute; reflexivity. Qed.

(** ** Rejection of a repeated rotor *)

Lemma pair_size (x y : string) : (size ({[x; y]} : gset string) ≤ 2)%nat.
Proof.
  rewrite size_union_alt, size_singleton.
  assert (({[y]} ∖ {[x]} : gset string) ⊆ {[y]}) as Hsub.
  { intros z Hz. by apply elem_of_difference in Hz as [Hz _]. }
  apply subseteq_size in Hsub. rewrite size_singleton in Hsub. lia.
Qed.

Lemma three_ids_size (a b c : string) :
  (size ({[a; b; c]} : gset string) < 3)%nat ↔ ¬ (a ≠ b ∧ a ≠ c ∧ b ≠ c).
Proof.
  assert (∀ x y z u v : string,
            (∀ w, w = x ∨ w = y ∨ w = z ↔ w = u ∨ w = v) →
            (size ({[x; y; z]} : gset string) < 3)%nat) as Hsmall.
  { intros x y z u v Hsame.
    replace ({[x; y; z]} : gset string) with ({[u; v]} : gset string).
    - pose proof (pair_size u v). lia.
    - apply set_eq. intros w.
      rewrite !elem_of_union, !elem_of_singleton. rewrite <- Hsame. tauto. }
  destruct (decide (a = b)) as [->|Hab].
  { split; [tauto|]. intros _. apply (Hsmall _ _ _ b c). intros w. tauto. }
  destruct (decide (a = c)) as [->|Hac].
  { split; [tauto|]. intros _. apply (Hsmall _ _ _ c b). intros w. tauto. }
  destruct (decide (b = c)) as [->|Hbc].
  { split; [tauto|]. intros _. apply (Hsmall _ _ _ a c). intros w. tauto. }
  rewrite !size_union, !size_singleton.
  - split; [lia|tauto].
  - by apply disjoint_singleton_l, not_elem_of_singleton.
  - apply disjoint_singleton_r. rewrite elem_of_union, !elem_of_singleton.
    intros [?|?]; congruence.
Qed.

(** C7, as the claim states it, fails: [get_cycle_structure] called with the
    rotor order (I, I, II) raises nothing and returns thirteen cycles. *)
Lemma duplicate_order_is_analysed :
  get_cycle_structure 2 ("I", "I", "II")%string (0, 0, 0) "A" =
  Ok [["A"; "L"; "A"]; ["B"; "I"; "B"]; ["C"; "P"; "C"]; ["D"; "F"; "D"];
      ["E"; "G"; "E"]; ["H"; "M"; "H"]; ["J"; "Q"; "J"]; ["K"; "O"; "K"];
      ["N"; "S"; "N"]; ["R"; "T"; "R"]; ["U"; "W"; "U"]; ["V"; "Z"; "V"];
      ["X"; "Y"; "X"]]%char.
Proof. vm_compute. reflexivity. Qed.

(** C7, amended. The rejection lives in [display_cycles]: when two of the
    three selected rotor ids are equal it prints one line asking for three
    distinct rotors and returns normally, whatever the other arguments and
    before any cycle is computed (no fuel is needed).
    [get_cycle_structure] itself makes no such check: for any order drawn
    from the catalog, repeated ids included, it returns a cycle structure. *)
Theorem display_cycles_rejects_repeated fuel left_rotor middle_rotor
    right_rotor left_pos middle_pos right_pos reflector out :
  ¬ (left_rotor ≠ middle_rotor ∧ left_rotor ≠ right_rotor ∧
     middle_rotor ≠ right_rotor) →
  display_cycles fuel left_rotor middle_rotor right_rotor
    left_pos middle_pos right_pos reflector out
    = (out ++ ["**Please select three distinct rotors.**"]%string, Ok ()) ∧
  (left_rotor ∈ rotor_options → middle_rotor ∈ rotor_options →
   right_rotor ∈ rotor_options → reflector ∈ reflector_options →
   0 ≤ left_pos < 26 → 0 ≤ middle_pos < 26 → 0 ≤ right_pos < 26 →
   ∃ cycles,
     get_cycle_structure (S (S fuel)) (left_rotor, middle_rotor, right_rotor)
       (left_pos, middle_pos, right_pos) reflector = Ok cycles).
Proof.
  intros Hrep. split.
  - unfold display_cycles.
    by rewrite bool_decide_true by (by apply three_ids_size).
  - intros Hleft Hmid Hright Hrefl Hpl Hpm Hpr.
    machine_parts Hleft Hmid Hright Hrefl.
    destruct (get_cycle_structure_inv left_rotor middle_rotor right_rotor
                wl wm wr Hl Hwl Hm Hwm Hr Hwr nm nr Hnm Hnr Hmn Hrn
                reflector t Ht Hok fuel (left_pos, middle_pos, right_pos))
      as (cycles & _ & Hrun & _); [done|].
    by exists cycles.
Qed.

Lemma display_cycles_rejects_repeated_witness :
  display_cycles 0 "I" "I" "II" 0 0 0 "A" []
    = (["**Please select three distinct rotors.**"]%string, Ok ()).
Proof.
  apply (display_cycles_rejects_repeated 0 "I" "I" "II" 0 0 0 "A" []).
  intros (Hne & _). by apply Hne.
Defined.

(** * Further properties of the module *)

(** ** The embedded tables *)





(** ** One press *)

(** X3. A press of an uppercase letter returns an uppercase letter and
    positions that are again in [0,26), so the result can be fed to the
    next press. *)
Theorem press_stays_in_alphabet left_rotor mid_rotor right_rotor
    pos_left pos_mid pos_right reflector_type L :
  left_rotor ∈ rotor_options → mid_rotor ∈ rotor_options →
  right_rotor ∈ rotor_options →
  0 ≤ pos_left < 26 → 0 ≤ pos_mid < 26 → 0 ≤ pos_right < 26 →
  reflector_type ∈ reflector_options → L ∈ letters →
  ∃ C pos_left' pos_mid' pos_right',
    encrypt_letter L (left_rotor, mid_rotor, right_rotor)
      (pos_left, pos_mid, pos_right) reflector_type
      = Ok (C, (pos_left', pos_mid', pos_right')) ∧
    C ∈ letters ∧
    0 ≤ pos_left' < 26 ∧ 0 ≤ pos_mid' < 26 ∧ 0 ≤ pos_right' < 26.
Proof.
  intros Hleft Hmid Hright Hpl Hpm Hpr Hrefl (x & Hx & ->)%elem_of_letters.
  machine_parts Hleft Hmid Hright Hrefl.
  pose proof (encrypt_letter_cipher left_rotor mid_rotor right_rotor wl wm wr
                Hl Hwl Hm Hwm Hr Hwr nm nr Hnm Hnr Hmn Hrn reflector_type t
                Ht Hok (pos_left, pos_mid, pos_right) x) as Henc.
  pose proof (stepped_in_range nm nr (pos_left, pos_mid, pos_right)) as Hrange.
  destruct (stepped nm nr (pos_left, pos_mid, pos_right)) as [[pl' pm'] pr'].
  assert (in_range (pl', pm', pr')) as (Hl' & Hm' & Hr')
    by (apply Hrange; unfold in_range; auto).
  exists (letter_of (cipher wl wm wr t (pl', pm', pr') x)), pl', pm', pr'.
  split_and!; [by apply Henc| |lia..].
  apply elem_of_letters. eexists. split; [apply cipher_range|done].
Qed.

Lemma press_stays_in_alphabet_witness :
  ∃ C pos_left' pos_mid' pos_right',
    encrypt_letter "M" ("II", "I", "III")%string (25, 16, 21) "B"
      = Ok (C, (pos_left', pos_mid', pos_right')) ∧
    C ∈ letters ∧
    0 ≤ pos_left' < 26 ∧ 0 ≤ pos_mid' < 26 ∧ 0 ≤ pos_right' < 26.
Proof.
  apply (press_stays_in_alphabet "II" "I" "III" 25 16 21 "B" "M"); at_input.
Defined.

(** X4. From one snapshot of the positions, two different letters are never
    enciphered to the same letter. *)
Theorem press_is_injective left_rotor mid_rotor right_rotor
    pos_left pos_mid pos_right reflector_type L1 L2 C1 C2 p1 p2 :
  left_rotor ∈ rotor_options → mid_rotor ∈ rotor_options →
  right_rotor ∈ rotor_options →
  0 ≤ pos_left < 26 → 0 ≤ pos_mid < 26 → 0 ≤ pos_right < 26 →
  reflector_type ∈ reflector_options → L1 ∈ letters → L2 ∈ letters →
  L1 ≠ L2 →
  encrypt_letter L1 (left_rotor, mid_rotor, right_rotor)
    (pos_left, pos_mid, pos_right) reflector_type = Ok (C1, p1) →
  encrypt_letter L2 (left_rotor, mid_rotor, right_rotor)
    (pos_left, pos_mid, pos_right) reflector_type = Ok (C2, p2) →
  C1 ≠ C2.
Proof.
  intros Hleft Hmid Hright Hpl Hpm Hpr Hrefl
    (x1 & Hx1 & ->)%elem_of_letters (x2 & Hx2 & ->)%elem_of_letters Hne.
  machine_parts Hleft Hmid Hright Hrefl.
  pose proof (encrypt_letter_cipher left_rotor mid_rotor right_rotor wl wm wr
                Hl Hwl Hm Hwm Hr Hwr nm nr Hnm Hnr Hmn Hrn reflector_type t
                Ht Hok (pos_left, pos_mid, pos_right)) as Henc.
  rewrite !Henc by done. intros H1 H2 Heq. subst C2.
  pose (cipher_letter := λ r : result (ascii * (Z * Z * Z)),
          match r with Ok (c, _) => c | _ => "A"%char end).
  apply (f_equal cipher_letter) in H1, H2.
  cbv beta iota delta [cipher_letter] in H1, H2.
  rewrite <- H2 in H1. apply Hne. f_equal.
  apply letter_of_inj in H1; [|apply cipher_range..].
  rewrite <- (cipher_involutive wl wm wr Hwl Hwm Hwr t Hok
                (stepped nm nr (pos_left, pos_mid, pos_right)) x1) by done.
  rewrite H1. by apply cipher_involutive.
Qed.

Lemma press_is_injective_witness : ("B" : ascii) ≠ "A"%char.
Proof.
  apply (press_is_injective "I" "II" "III" 0 0 0 "B" "A" "B" "B" "A"
           (0, 0, 1) (0, 0, 1)); at_input.
Defined.

(** ** Stepping over one and two presses *)

Lemma succ_mod_26_ne a : 0 ≤ a < 26 → (a + 1) mod 26 ≠ a.
Proof.
  intros Ha. destruct (decide (a = 25)) as [->|Hne]; [done|].
  rewrite Z.mod_small by lia. lia.
Qed.

(** The positions a successful press returns. *)
Definition positions_of (r : result (ascii * (Z * Z * Z))) : Z * Z * Z :=
  match r with Ok (_, p) => p | _ => (0, 0, 0) end.

(** X5. In every press the right rotor moves, and the left rotor never moves
    unless the middle rotor moves in the same press. *)
Theorem left_moves_only_with_middle left_rotor mid_rotor right_rotor
    pos_left pos_mid pos_right reflector_type L C
    pos_left' pos_mid' pos_right' :
  left_rotor ∈ rotor_options → mid_rotor ∈ rotor_options →
  right_rotor ∈ rotor_options →
  0 ≤ pos_left < 26 → 0 ≤ pos_mid < 26 → 0 ≤ pos_right < 26 →
  reflector_type ∈ reflector_options → L ∈ letters →
  encrypt_letter L (left_rotor, mid_rotor, right_rotor)
    (pos_left, pos_mid, pos_right) reflector_type
    = Ok (C, (pos_left', pos_mid', pos_right')) →
  pos_right' ≠ pos_right ∧ (pos_left' ≠ pos_left → pos_mid' ≠ pos_mid).
Proof.
  intros Hleft Hmid Hright Hpl Hpm Hpr Hrefl (x & Hx & ->)%elem_of_letters.
  machine_parts Hleft Hmid Hright Hrefl.
  rewrite (encrypt_letter_cipher left_rotor mid_rotor right_rotor wl wm wr
             Hl Hwl Hm Hwm Hr Hwr nm nr Hnm Hnr Hmn Hrn reflector_type t
             Ht Hok (pos_left, pos_mid, pos_right) x) by done.
  intros Hres. apply (f_equal positions_of) in Hres.
  cbv beta iota delta [positions_of stepped] in Hres.
  pose proof (succ_mod_26_ne pos_mid Hpm).
  pose proof (succ_mod_26_ne pos_right Hpr).
  assert (pos_left' = (if bool_decide (pos_mid = nm)
                       then (pos_left + 1) mod 26 else pos_left) ∧
          pos_mid' = (if bool_decide (pos_right = nr ∨ pos_mid = nm)
                      then (pos_mid + 1) mod 26 else pos_mid) ∧
          pos_right' = (pos_right + 1) mod 26) as (-> & -> & ->)
    by (split_and!; congruence).
  split; [done|]. case_bool_decide as Hm1; [|done].
  by rewrite bool_decide_true by auto.
Qed.

Lemma left_moves_only_with_middle_witness :
  (22 : Z) ≠ 21 ∧ ((1 : Z) ≠ 0 → (5 : Z) ≠ 4).
Proof.
  apply (left_moves_only_with_middle "I" "II" "III" 0 4 21 "B" "A" "G" 1 5 22);
    at_input.
Defined.

(** X6. The double step. When the right rotor stands at its notch [r] and
    the middle rotor one place before its notch [m], two presses in a row
    both move the middle rotor: the first brings it to [m], the second moves
    it on together with the left rotor. *)
Theorem double_step left_rotor mid_rotor right_rotor mid_notch right_notch
    m r pos_left pos_mid reflector_type L1 L2 :
  left_rotor ∈ rotor_options → mid_rotor ∈ rotor_options →
  right_rotor ∈ rotor_options →
  rotor_notch !! mid_rotor = Some mid_notch →
  rotor_notch !! right_rotor = Some right_notch →
  0 ≤ m < 26 → str_getitem ascii_uppercase m = Ok mid_notch →
  0 ≤ r < 26 → str_getitem ascii_uppercase r = Ok right_notch →
  0 ≤ pos_left < 26 → 0 ≤ pos_mid < 26 → (pos_mid + 1) mod 26 = m →
  reflector_type ∈ reflector_options → L1 ∈ letters → L2 ∈ letters →
  ∃ C1 C2,
    encrypt_letter L1 (left_rotor, mid_rotor, right_rotor)
      (pos_left, pos_mid, r) reflector_type
      = Ok (C1, (pos_left, m, (r + 1) mod 26)) ∧
    encrypt_letter L2 (left_rotor, mid_rotor, right_rotor)
      (pos_left, m, (r + 1) mod 26) reflector_type
      = Ok (C2, ((pos_left + 1) mod 26, (m + 1) mod 26, (r + 2) mod 26)).
Proof.
  intros Hleft Hmid Hright Hnm Hnr Hm Hgm Hr Hgr Hpl Hpm Hnext Hrefl
    (x1 & Hx1 & ->)%elem_of_letters (x2 & Hx2 & ->)%elem_of_letters.
  pose proof (notch_letter_of _ _ _ Hnm Hm Hgm) as Hnm'.
  pose proof (notch_letter_of _ _ _ Hnr Hr Hgr) as Hnr'.
  destruct (catalog_wiring _ Hleft) as (wl & Hl & Hwl).
  destruct (catalog_wiring _ Hmid) as (wm & Hwm1 & Hwm).
  destruct (catalog_wiring _ Hright) as (wr & Hwr1 & Hwr).
  destruct (catalog_reflector _ Hrefl) as (t & Ht & Hok).
  pose proof (encrypt_letter_cipher left_rotor mid_rotor right_rotor wl wm wr
                Hl Hwl Hwm1 Hwm Hwr1 Hwr m r Hm Hr Hnm' Hnr' reflector_type t
                Ht Hok) as Henc.
  assert (pos_mid ≠ m) as Hne
    by (rewrite <- Hnext; intros Heq; by apply (succ_mod_26_ne pos_mid)).
  assert (0 ≤ (r + 1) mod 26 < 26) as Hr1 by (apply Z.mod_pos_bound; lia).
  assert (stepped m r (pos_left, pos_mid, r) = (pos_left, m, (r + 1) mod 26))
    as Hs1.
  { unfold stepped. rewrite bool_decide_false by done.
    rewrite bool_decide_true by auto. by rewrite Hnext. }
  assert (stepped m r (pos_left, m, (r + 1) mod 26)
          = ((pos_left + 1) mod 26, (m + 1) mod 26, (r + 2) mod 26)) as Hs2.
  { unfold stepped. rewrite bool_decide_true by done.
    rewrite bool_decide_true by auto.
    rewrite Zplus_mod_idemp_l. by replace (r + 1 + 1) with (r + 2) by lia. }
  do 2 eexists. split.
  - rewrite Henc by (done || by split_and!). by rewrite Hs1.
  - rewrite Henc by (done || by split_and!). by rewrite Hs2.
Qed.

Lemma double_step_witness :
  ∃ C1 C2,
    encrypt_letter "A" ("I", "II", "III")%string (0, 3, 21) "B"
      = Ok (C1, (0, 4, (21 + 1) mod 26)) ∧
    encrypt_letter "A" ("I", "II", "III")%string (0, 4, (21 + 1) mod 26) "B"
      = Ok (C2, ((0 + 1) mod 26, (4 + 1) mod 26, (21 + 2) mod 26)).
Proof.
  apply (double_step "I" "II" "III" "E" "V" 4 21 0 3 "B" "A" "A"); at_input.
Defined.

(** ** Errors of one press *)

Lemma uppercase_getitem_out i :
  ¬ (-26 ≤ i < 26) → str_getitem ascii_uppercase i = Raise IndexError.
Proof.
  intros Hi. unfold str_getitem.
  change (Z.of_nat (String.length ascii_uppercase)) with 26. cbv zeta.
  destruct (bool_decide (i < 0)) eqn:Hneg;
    [apply bool_decide_eq_true in Hneg|apply bool_decide_eq_false in Hneg];
    rewrite bool_decide_false by lia; done.
Qed.

Lemma rotor_notch_unknown rotor :
  rotor ∉ rotor_options →
  dict_getitem show_str rotor_notch rotor = Raise (KeyError rotor).
Proof.
  intros Hno. apply (dict_getitem_None show_str).
  by apply dict_of_lookup_None.
Qed.

Lemma rotor_wiring_unknown rotor :
  rotor ∉ rotor_options →
  dict_getitem show_str rotor_wiring rotor = Raise (KeyError rotor).
Proof.
  intros Hno. apply (dict_getitem_None show_str).
  by apply dict_of_lookup_None.
Qed.

(** X7. Bounds of the positions. A middle position outside [-26,26) makes
    the press raise [IndexError] at line 38 whatever the other arguments
    are, rotor ids and letter included; with the middle rotor and its
    position accepted, a right position outside [-26,26) raises
    [IndexError] at line 41. *)
Theorem position_out_of_range_raises letter left_rotor mid_rotor right_rotor
    pos_left pos_mid pos_right reflector_type :
  (¬ (-26 ≤ pos_mid < 26) →
   encrypt_letter letter (left_rotor, mid_rotor, right_rotor)
     (pos_left, pos_mid, pos_right) reflector_type = Raise IndexError) ∧
  (0 ≤ pos_mid < 26 → mid_rotor ∈ rotor_options →
   ¬ (-26 ≤ pos_right < 26) →
   encrypt_letter letter (left_rotor, mid_rotor, right_rotor)
     (pos_left, pos_mid, pos_right) reflector_type = Raise IndexError).
Proof.
  split.
  - intros Hpm. unfold encrypt_letter, encrypt_letter_with, step_rotors, at_notch.
    by rewrite uppercase_getitem_out.
  - intros Hpm Hmid Hpr.
    destruct (catalog_notch _ Hmid) as (nm & Hnm & Hmn).
    unfold encrypt_letter, encrypt_letter_with, step_rotors.
    rewrite (at_notch_spec pos_mid mid_rotor nm), bind_Ok by done.
    unfold at_notch at 1. by rewrite uppercase_getitem_out.
Qed.

Lemma position_out_of_range_raises_witness :
  encrypt_letter "A" ("I", "II", "III")%string (0, 0, 26) "B"
    = Raise IndexError.
Proof.
  apply (position_out_of_range_raises "A" "I" "II" "III" 0 0 26 "B");
    at_input.
Defined.

(** X8. Unknown rotor ids. With positions that index the alphabet, an
    unknown middle rotor raises [KeyError] on its id at line 38 and, the
    middle rotor being known, an unknown right rotor raises [KeyError] on
    its id at line 41, both before the letter is looked at. An unknown left
    rotor is only met at line 71: with everything else valid the press
    raises [KeyError] on the left id. *)
Theorem unknown_rotor_raises letter left_rotor mid_rotor right_rotor
    pos_left pos_mid pos_right reflector_type :
  0 ≤ pos_mid < 26 → 0 ≤ pos_right < 26 →
  (mid_rotor ∉ rotor_options →
   encrypt_letter letter (left_rotor, mid_rotor, right_rotor)
     (pos_left, pos_mid, pos_right) reflector_type
     = Raise (KeyError mid_rotor)) ∧
  (mid_rotor ∈ rotor_options → right_rotor ∉ rotor_options →
   encrypt_letter letter (left_rotor, mid_rotor, right_rotor)
     (pos_left, pos_mid, pos_right) reflector_type
     = Raise (KeyError right_rotor)) ∧
  (mid_rotor ∈ rotor_options → right_rotor ∈ rotor_options →
   left_rotor ∉ rotor_options → letter ∈ letters →
   encrypt_letter letter (left_rotor, mid_rotor, right_rotor)
     (pos_left, pos_mid, pos_right) reflector_type
     = Raise (KeyError left_rotor)).
Proof.
  intros Hpm Hpr. split_and!.
  - intros Hmid. unfold encrypt_letter, encrypt_letter_with, step_rotors, at_notch.
    rewrite uppercase_getitem, bind_Ok by done.
    by rewrite rotor_notch_unknown.
  - intros Hmid Hright.
    destruct (catalog_notch _ Hmid) as (nm & Hnm & Hmn).
    unfold encrypt_letter, encrypt_letter_with, step_rotors.
    rewrite (at_notch_spec pos_mid mid_rotor nm), bind_Ok by done.
    unfold at_notch at 1. rewrite uppercase_getitem, bind_Ok by done.
    by rewrite rotor_notch_unknown.
  - intros Hmid Hright Hleft (x & Hx & ->)%elem_of_letters.
    destruct (catalog_wiring _ Hmid) as (wm & Hm & Hwm).
    destruct (catalog_wiring _ Hright) as (wr & Hr & Hwr).
    destruct (catalog_notch _ Hmid) as (nm & Hnm & Hmn).
    destruct (catalog_notch _ Hright) as (nr & Hnr & Hrn).
    unfold encrypt_letter, encrypt_letter_with.
    assert (∃ p', step_rotors (left_rotor, mid_rotor, right_rotor)
                    (pos_left, pos_mid, pos_right) = Ok p') as [p' Hstep].
    { unfold step_rotors.
      rewrite (at_notch_spec pos_mid mid_rotor nm), bind_Ok by done.
      rewrite (at_notch_spec pos_right right_rotor nr), bind_Ok by done.
      destruct (bool_decide (pos_right = nr)); rewrite ?bind_Ok; eauto. }
    rewrite Hstep, bind_Ok. destruct p' as [[pl pm] pr]. cbv beta iota.
    rewrite plugboard_getitem, bind_Ok by done.
    rewrite char_to_index_letter_of by done.
    rewrite (dict_getitem_Some _ _ _ _ Hr), bind_Ok.
    rewrite forward_substitute_fwd, bind_Ok by done.
    rewrite index_to_char_letter_of, bind_Ok by (by apply fwd_range).
    rewrite char_to_index_letter_of by (by apply fwd_range).
    rewrite (dict_getitem_Some _ _ _ _ Hm), bind_Ok.
    rewrite forward_substitute_fwd, bind_Ok by done.
    rewrite index_to_char_letter_of, bind_Ok by (by apply fwd_range).
    by rewrite rotor_wiring_unknown.
Qed.

Lemma unknown_rotor_raises_witness :
  encrypt_letter "A" ("IV", "II", "III")%string (0, 0, 0) "B"
    = Raise (KeyError "IV").
Proof.
  apply (unknown_rotor_raises "A" "IV" "II" "III" 0 0 0 "B"); at_input.
Defined.

Lemma reflector_wiring_unknown reflector_type :
  reflector_type ∉ reflector_options →
  dict_getitem show_str reflector_wiring reflector_type
    = Raise (KeyError reflector_type).
Proof.
  intros Hno. apply (dict_getitem_None show_str).
  by apply dict_of_lookup_None.
Qed.

(** X9. An unknown reflector id is only met at line 76, after the rotors
    have stepped and the forward pass has run: with everything else valid
    the press raises [KeyError] on the reflector id. *)
Theorem unknown_reflector_raises left_rotor mid_rotor right_rotor
    pos_left pos_mid pos_right reflector_type L :
  left_rotor ∈ rotor_options → mid_rotor ∈ rotor_options →
  right_rotor ∈ rotor_options →
  0 ≤ pos_left < 26 → 0 ≤ pos_mid < 26 → 0 ≤ pos_right < 26 →
  L ∈ letters → reflector_type ∉ reflector_options →
  encrypt_letter L (left_rotor, mid_rotor, right_rotor)
    (pos_left, pos_mid, pos_right) reflector_type
    = Raise (KeyError reflector_type).
Proof.
  intros Hleft Hmid Hright Hpl Hpm Hpr (x & Hx & ->)%elem_of_letters Hrefl.
  destruct (catalog_wiring _ Hleft) as (wl & Hl & Hwl).
  destruct (catalog_wiring _ Hmid) as (wm & Hm & Hwm).
  destruct (catalog_wiring _ Hright) as (wr & Hr & Hwr).
  destruct (catalog_notch _ Hmid) as (nm & Hnm & Hmn).
  destruct (catalog_notch _ Hright) as (nr & Hnr & Hrn).
  unfold encrypt_letter, encrypt_letter_with.
  rewrite (step_rotors_spec left_rotor mid_rotor right_rotor nm nr), bind_Ok
    by (done || by split_and!).
  destruct (stepped _ _ _) as [[pl pm] pr]. cbv beta iota.
  rewrite plugboard_getitem, bind_Ok by done.
  rewrite char_to_index_letter_of by done.
  rewrite (dict_getitem_Some _ _ _ _ Hr), bind_Ok.
  rewrite forward_substitute_fwd, bind_Ok by done.
  rewrite index_to_char_letter_of, bind_Ok by (by apply fwd_range).
  rewrite char_to_index_letter_of by (by apply fwd_range).
  rewrite (dict_getitem_Some _ _ _ _ Hm), bind_Ok.
  rewrite forward_substitute_fwd, bind_Ok by done.
  rewrite index_to_char_letter_of, bind_Ok by (by apply fwd_range).
  rewrite char_to_index_letter_of by (by apply fwd_range).
  rewrite (dict_getitem_Some _ _ _ _ Hl), bind_Ok.
  rewrite forward_substitute_fwd, bind_Ok by done.
  rewrite index_to_char_letter_of, bind_Ok by (by apply fwd_range).
  by rewrite reflector_wiring_unknown.
Qed.

Lemma unknown_reflector_raises_witness :
  encrypt_letter "A" ("I", "II", "III")%string (0, 0, 0) "C"
    = Raise (KeyError "C").
Proof.
  apply (unknown_reflector_raises "I" "II" "III" 0 0 0 "C" "A"); at_input.
Defined.

(** ** Positions outside [0,26) *)

Lemma uppercase_getitem_wide i :
  -26 ≤ i < 26 → str_getitem ascii_uppercase i = Ok (letter_of (i mod 26)).
Proof.
  intros Hi. destruct (decide (i < 0)) as [Hneg|Hpos].
  - assert (i mod 26 = i + 26) as ->
      by (symmetry; apply (Z.mod_unique i 26 (-1)); lia).
    rewrite <- uppercase_getitem by lia. unfold str_getitem.
    change (Z.of_nat (String.length ascii_uppercase)) with 26. cbv zeta.
    rewrite (bool_decide_true (i < 0)) by done.
    by rewrite (bool_decide_false (i + 26 < 0)) by lia.
  - rewrite Z.mod_small by lia. apply uppercase_getitem. lia.
Qed.

Lemma at_notch_wide pos rotor m :
  -26 ≤ pos < 26 → 0 ≤ m < 26 → rotor_notch !! rotor = Some (letter_of m) →
  at_notch pos rotor = Ok (bool_decide (pos mod 26 = m)).
Proof.
  intros Hpos Hm Hnotch. unfold at_notch, dict_getitem.
  rewrite uppercase_getitem_wide, bind_Ok, Hnotch, bind_Ok by done. f_equal.
  assert (0 ≤ pos mod 26 < 26) by (apply Z.mod_pos_bound; lia).
  case_bool_decide as Heq.
  - rewrite Heq. apply Ascii.eqb_refl.
  - apply Ascii.eqb_neq. intros Hl. by apply Heq, letter_of_inj.
Qed.

Lemma fwd_mod w offset x : fwd w (offset mod 26) x = fwd w offset x.
Proof. unfold fwd. by rewrite Zplus_mod_idemp_r, Zminus_mod_idemp_r. Qed.

Lemma bwd_mod w offset y : bwd w (offset mod 26) y = bwd w offset y.
Proof. unfold bwd. by rewrite Zplus_mod_idemp_r, Zminus_mod_idemp_r. Qed.

(** X10. The press indexes the alphabet with the middle and right positions
    only, so it accepts any integer as left position and the negative
    indices [-26..-1] as middle and right positions. The cipher letter is
    the one obtained from the positions reduced modulo 26, and the returned
    positions agree modulo 26. *)
Theorem positions_count_modulo_26 left_rotor mid_rotor right_rotor
    pos_left pos_mid pos_right reflector_type L :
  left_rotor ∈ rotor_options → mid_rotor ∈ rotor_options →
  right_rotor ∈ rotor_options →
  -26 ≤ pos_mid < 26 → -26 ≤ pos_right < 26 →
  reflector_type ∈ reflector_options → L ∈ letters →
  ∃ C pos_left' pos_mid' pos_right',
    encrypt_letter L (left_rotor, mid_rotor, right_rotor)
      (pos_left, pos_mid, pos_right) reflector_type
      = Ok (C, (pos_left', pos_mid', pos_right')) ∧
    encrypt_letter L (left_rotor, mid_rotor, right_rotor)
      (pos_left mod 26, pos_mid mod 26, pos_right mod 26) reflector_type
      = Ok (C, (pos_left' mod 26, pos_mid' mod 26, pos_right' mod 26)).
Proof.
  intros Hleft Hmid Hright Hpm Hpr Hrefl (x & Hx & ->)%elem_of_letters.
  machine_parts Hleft Hmid Hright Hrefl.
  assert (0 ≤ pos_left mod 26 < 26) as Hl26 by (apply Z.mod_pos_bound; lia).
  assert (0 ≤ pos_mid mod 26 < 26) as Hm26 by (apply Z.mod_pos_bound; lia).
  assert (0 ≤ pos_right mod 26 < 26) as Hr26 by (apply Z.mod_pos_bound; lia).
  set (pl' := if bool_decide (pos_mid mod 26 = nm)
              then (pos_left + 1) mod 26 else pos_left).
  set (pm' := if bool_decide (pos_right mod 26 = nr ∨ pos_mid mod 26 = nm)
              then (pos_mid + 1) mod 26 else pos_mid).
  set (pr' := (pos_right + 1) mod 26).
  assert (step_rotors (left_rotor, mid_rotor, right_rotor)
            (pos_left, pos_mid, pos_right) = Ok (pl', pm', pr')) as Hstep.
  { unfold step_rotors.
    rewrite (at_notch_wide pos_mid mid_rotor nm), bind_Ok by done.
    rewrite (at_notch_wide pos_right right_rotor nr), bind_Ok by done.
    unfold pl', pm', pr'.
    destruct (bool_decide (pos_right mod 26 = nr)) eqn:Er; rewrite bind_Ok.
    - apply bool_decide_eq_true in Er.
      by rewrite (bool_decide_true (_ ∨ _)) by auto.
    - apply bool_decide_eq_false in Er.
      destruct (bool_decide (pos_mid mod 26 = nm)) eqn:Em.
      + apply bool_decide_eq_true in Em.
        by rewrite (bool_decide_true (_ ∨ _)) by auto.
      + apply bool_decide_eq_false in Em.
        by rewrite (bool_decide_false (_ ∨ _)) by tauto. }
  assert (stepped nm nr (pos_left mod 26, pos_mid mod 26, pos_right mod 26)
          = (pl' mod 26, pm' mod 26, pr' mod 26)) as Hred.
  { unfold stepped, pl', pm', pr'. rewrite !Zplus_mod_idemp_l.
    repeat case_bool_decide; by rewrite ?Z.mod_mod by lia. }
  exists (letter_of (cipher wl wm wr t (pl', pm', pr') x)), pl', pm', pr'.
  split.
  - unfold encrypt_letter.
    rewrite (encrypt_letter_with_spec left_rotor mid_rotor right_rotor
               wl wm wr Hl Hwl Hm Hwm Hr Hwr reflector_wiring reflector_type
               t (pos_left, pos_mid, pos_right) (pl', pm', pr') x) by done.
    pose proof (through_range wl wm wr (pl', pm', pr') x) as Hy.
    rewrite (reflect_lookup t Hok) by done.
    by rewrite char_to_index_letter_of by (by apply (reflect_range t Hok)).
  - rewrite (encrypt_letter_cipher left_rotor mid_rotor right_rotor wl wm wr
               Hl Hwl Hm Hwm Hr Hwr nm nr Hnm Hnr Hmn Hrn reflector_type t
               Ht Hok (pos_left mod 26, pos_mid mod 26, pos_right mod 26) x)
      by (done || by split_and!).
    rewrite Hred. unfold cipher, back, through. by rewrite !fwd_mod, !bwd_mod.
Qed.

Lemma positions_count_modulo_26_witness :
  ∃ C pos_left' pos_mid' pos_right',
    encrypt_letter "A" ("I", "II", "III")%string (100, -1, -26) "B"
      = Ok (C, (pos_left', pos_mid', pos_right')) ∧
    encrypt_letter "A" ("I", "II", "III")%string
      (100 mod 26, -1 mod 26, -26 mod 26) "B"
      = Ok (C, (pos_left' mod 26, pos_mid' mod 26, pos_right' mod 26)).
Proof.
  apply (positions_count_modulo_26 "I" "II" "III" 100 (-1) (-26) "B" "A");
    at_input.
Defined.

(** ** The shape and the order of the cycles *)

(** A cycle made of two letters and the closing repeat of the first. *)
Definition two_cycle (ab : ascii * ascii) : list ascii := [ab.1; ab.2; ab.1].

Lemma bodies_two_cycles pairs :
  length (bodies (two_cycle <$> pairs)) = (2 * length pairs)%nat.
Proof.
  unfold bodies. induction pairs as [|ab pairs IH]; [done|].
  rewrite !fmap_cons. cbn [concat]. rewrite length_app, IH. simpl. lia.
Qed.

(** The cycles of a run, as pairs. *)
Lemma cycle_structure_pairs fuel left_rotor mid_rotor right_rotor
    pos_left pos_mid pos_right reflector_type :
  left_rotor ∈ rotor_options → mid_rotor ∈ rotor_options →
  right_rotor ∈ rotor_options →
  0 ≤ pos_left < 26 → 0 ≤ pos_mid < 26 → 0 ≤ pos_right < 26 →
  reflector_type ∈ reflector_options →
  ∃ pairs,
    get_cycle_structure (S (S fuel)) (left_rotor, mid_rotor, right_rotor)
      (pos_left, pos_mid, pos_right) reflector_type
      = Ok (two_cycle <$> pairs) ∧
    length pairs = 13%nat ∧
    ∀ a b, (a, b) ∈ pairs → a ∈ letters ∧ b ∈ letters ∧ a ≠ b.
Proof.
  intros Hleft Hmid Hright Hpl Hpm Hpr Hrefl.
  machine_parts Hleft Hmid Hright Hrefl.
  destruct (get_cycle_structure_inv left_rotor mid_rotor right_rotor
              wl wm wr Hl Hwl Hm Hwm Hr Hwr nm nr Hnm Hnr Hmn Hrn
              reflector_type t Ht Hok fuel (pos_left, pos_mid, pos_right))
    as (cycles & seen & Hrun & [Hlet Hcl Hsh Hnd Hseen] & Hall); [done|].
  set (σ := mapping wl wm wr nm nr t (pos_left, pos_mid, pos_right)) in *.
  assert (∃ pairs, cycles = two_cycle <$> pairs ∧
            ∀ a b, (a, b) ∈ pairs → a ∈ letters ∧ b = σ a)
    as (pairs & -> & Hpairs).
  { clear Hrun Hnd Hseen. induction cycles as [|cyc cycles IH].
    - exists []. split; [done|]. intros a b Hab. by apply elem_of_nil in Hab.
    - destruct IH as (pairs & -> & Hpairs);
        [intros cyc' Hcyc'; apply Hsh; by right|].
      destruct (Hsh cyc) as (a & Ha & ->); [left|].
      exists ((a, σ a) :: pairs). split; [done|].
      intros a' b' [[= -> ->]|Hab]%elem_of_cons; [done|by apply Hpairs]. }
  exists pairs. split_and!; [done| |].
  - assert (bodies (two_cycle <$> pairs) ≡ₚ letters) as Hperm.
    { apply NoDup_Permutation; [done|apply NoDup_letters|].
      intros c. rewrite Hseen. split; auto. }
    apply Permutation_length in Hperm. rewrite bodies_two_cycles in Hperm.
    change (length letters) with 26%nat in Hperm. lia.
  - intros a b (Ha & ->)%Hpairs. split_and!; [done|apply mapping_letter|].
    intros Heq. symmetry in Heq. revert Heq.
    by apply (mapping_no_fixpoint wl wm wr Hwl Hwm Hwr nm nr t Hok).
Qed.



(** The first letter of a cycle ([cyc[0]]) and the order the sort of line
    183 compares cycles by. *)
Definition first_of (cyc : list ascii) : ascii := hd "A"%char cyc.
Definition first_lt (c1 c2 : list ascii) : Prop :=
  ord (first_of c1) < ord (first_of c2).
Definition ord_lt (a b : ascii) : Prop := ord a < ord b.

Lemma letters_increasing : StronglySorted ord_lt letters.
Proof.
  unfold letters, ascii_uppercase, ord_lt. cbn [list_ascii_of_string].
  repeat (apply SSorted_cons; [|repeat (apply Forall_cons_2; [reflexivity|]);
                                 apply Forall_nil_2]).
  apply SSorted_nil.
Qed.

(** The [for] loop appends cycles whose first letters increase, provided
    every [while True] loop it starts at [a] returns a cycle that starts
    with [a]. *)
Lemma for_letters_ordered fuel rotor_order p reflector_type ls :
  (∀ a seen0, a ∈ ls →
     ∃ b seen1, cycle_loop fuel rotor_order p reflector_type a a [] seen0
                = Ok ([a; b; a], seen1)) →
  StronglySorted ord_lt ls →
  ∀ cycles seen cycles',
    StronglySorted first_lt cycles →
    (∀ cyc a, cyc ∈ cycles → a ∈ ls → ord (first_of cyc) < ord a) →
    for_letters fuel rotor_order p reflector_type ls cycles seen = Ok cycles' →
    StronglySorted first_lt cycles'.
Proof.
  intros Hloop Hls. induction Hls as [|a ls Hls IH Ha].
  - intros cycles seen cycles' Hsorted _ Hrun. cbn [for_letters] in Hrun.
    congruence.
  - intros cycles seen cycles' Hsorted Hbelow. cbn [for_letters].
    assert (∀ a' seen0, a' ∈ ls →
              ∃ b seen1, cycle_loop fuel rotor_order p reflector_type
                           a' a' [] seen0 = Ok ([a'; b; a'], seen1)) as Hloop'
      by (intros a' seen0 Ha'; apply Hloop; by right).
    case_bool_decide as Hseen.
    + apply (IH Hloop'); [done|]. intros cyc a' Hcyc Ha'.
      apply Hbelow; [done|by right].
    + destruct (Hloop a seen) as (b & seen1 & ->); [left|].
      rewrite bind_Ok. cbv beta iota. apply (IH Hloop').
      * apply StronglySorted_app_2; [|done|repeat constructor].
        intros c1 c2 Hc1 ->%list_elem_of_singleton.
        apply Hbelow; [done|left].
      * intros cyc a' [Hcyc| ->%list_elem_of_singleton]%elem_of_app Ha'.
        -- apply Hbelow; [done|by right].
        -- rewrite Forall_forall in Ha. by apply Ha.
Qed.

Lemma keyed_two_cycles pairs :
  keyed (two_cycle <$> pairs) = Ok ((λ ab, (ab.1, two_cycle ab)) <$> pairs).
Proof.
  induction pairs as [|ab pairs IH]; [done|].
  rewrite !fmap_cons. cbn [keyed two_cycle first_letter].
  by rewrite bind_Ok, IH, bind_Ok.
Qed.

(** Inserting the elements of a list that is already in key order, last
    element first, rebuilds the list. *)
Lemma insertion_keeps_sorted ks :
  StronglySorted (λ x y : ascii * list ascii, ord x.1 ≤ ord y.1) ks →
  foldr insert_by_key [] ks = ks.
Proof.
  induction 1 as [|k ks Hks IH Hk]; [done|].
  cbn [foldr]. rewrite IH. destruct ks as [|k' ks']; [done|].
  cbn [insert_by_key]. apply Forall_cons_1 in Hk as [Hk _].
  by rewrite bool_decide_true.
Qed.

Lemma sorted_two_cycles pairs :
  StronglySorted first_lt (two_cycle <$> pairs) →
  sorted_by_first (two_cycle <$> pairs) = Ok (two_cycle <$> pairs).
Proof.
  intros Hsorted. unfold sorted_by_first.
  rewrite keyed_two_cycles, bind_Ok. f_equal.
  rewrite insertion_keeps_sorted.
  - rewrite <- list_fmap_compose. by apply list_fmap_ext.
  - clear -Hsorted. induction pairs as [|ab pairs IH]; [constructor|].
    rewrite !fmap_cons in *. apply StronglySorted_inv in Hsorted as [Hs Hf].
    constructor; [by apply IH|].
    rewrite Forall_fmap. rewrite Forall_fmap in Hf.
    eapply Forall_impl; [exact Hf|].
    intros ab' Hlt. unfold first_lt, first_of, two_cycle in Hlt.
    simpl in Hlt. simpl. lia.
Qed.

Lemma get_cycle_structure_letters fuel rotor_order p reflector_type :
  get_cycle_structure fuel rotor_order p reflector_type
  = for_letters fuel rotor_order p reflector_type letters [] ∅.
Proof. reflexivity. Qed.

(** The cycles of a run as pairs, in increasing order of first letters. *)
Lemma cycle_structure_sorted_pairs fuel left_rotor mid_rotor right_rotor
    pos_left pos_mid pos_right reflector_type :
  left_rotor ∈ rotor_options → mid_rotor ∈ rotor_options →
  right_rotor ∈ rotor_options →
  0 ≤ pos_left < 26 → 0 ≤ pos_mid < 26 → 0 ≤ pos_right < 26 →
  reflector_type ∈ reflector_options →
  ∃ pairs,
    get_cycle_structure (S (S fuel)) (left_rotor, mid_rotor, right_rotor)
      (pos_left, pos_mid, pos_right) reflector_type
      = Ok (two_cycle <$> pairs) ∧
    length pairs = 13%nat ∧
    StronglySorted first_lt (two_cycle <$> pairs).
Proof.
  intros Hleft Hmid Hright Hpl Hpm Hpr Hrefl.
  destruct (cycle_structure_pairs fuel left_rotor mid_rotor right_rotor
              pos_left pos_mid pos_right reflector_type)
    as (pairs & Hrun & Hlen & _); [done..|].
  exists pairs. split_and!; [done..|].
  machine_parts Hleft Hmid Hright Hrefl.
  rewrite get_cycle_structure_letters in Hrun.
  apply (for_letters_ordered (S (S fuel)) (left_rotor, mid_rotor, right_rotor)
           (pos_left, pos_mid, pos_right) reflector_type letters)
    with (cycles := []) (seen := ∅).
  - intros a seen0 Ha. do 2 eexists.
    by apply (cycle_loop_pair left_rotor mid_rotor right_rotor wl wm wr
                Hl Hwl Hm Hwm Hr Hwr nm nr Hnm Hnr Hmn Hrn reflector_type t
                Ht Hok fuel (pos_left, pos_mid, pos_right) a seen0).
  - apply letters_increasing.
  - constructor.
  - intros cyc a Hcyc. by apply elem_of_nil in Hcyc.
  - exact Hrun.
Qed.

(** X12. [get_cycle_structure] returns its cycles already in the order of
    their first letters, so the sort of line 183 in [display_cycles] gives
    back the list unchanged. *)
Theorem sort_keeps_order fuel left_rotor mid_rotor right_rotor
    pos_left pos_mid pos_right reflector_type :
  (2 ≤ fuel)%nat →
  left_rotor ∈ rotor_options → mid_rotor ∈ rotor_options →
  right_rotor ∈ rotor_options →
  0 ≤ pos_left < 26 → 0 ≤ pos_mid < 26 → 0 ≤ pos_right < 26 →
  reflector_type ∈ reflector_options →
  ∃ cycles,
    get_cycle_structure fuel (left_rotor, mid_rotor, right_rotor)
      (pos_left, pos_mid, pos_right) reflector_type = Ok cycles ∧
    StronglySorted first_lt cycles ∧
    sorted_by_first cycles = Ok cycles.
Proof.
  intros Hfuel Hleft Hmid Hright Hpl Hpm Hpr Hrefl.
  destruct fuel as [|[|fuel]]; [lia..|].
  destruct (cycle_structure_sorted_pairs fuel left_rotor mid_rotor right_rotor
              pos_left pos_mid pos_right reflector_type)
    as (pairs & Hrun & _ & Hsorted); [done..|].
  exists (two_cycle <$> pairs). split_and!; [done..|].
  by apply sorted_two_cycles.
Qed.

Lemma sort_keeps_order_witness :
  ∃ cycles,
    get_cycle_structure 3 ("I", "III", "II")%string (9, 21, 4) "B"
      = Ok cycles ∧
    StronglySorted first_lt cycles ∧
    sorted_by_first cycles = Ok cycles.
Proof.
  apply (sort_keeps_order 3 "I" "III" "II" 9 21 4 "B"); at_input.
Defined.

(** ** The report of [display_cycles] *)

Lemma io_bind_lift_Ok {A B} (a : A) (f : A → io B) out :
  (lift (Ok a) ≫= f) out = f a out.
Proof. reflexivity. Qed.

Lemma io_bind_print {B} line (f : () → io B) out :
  (print line ≫= f) out = f () (out ++ [line]).
Proof. reflexivity. Qed.

(** The line printed for the [i]-th cycle [a, b, a] (lines 196-200). *)
Definition cycle_line (i : nat) (ab : ascii * ascii) : string :=
  "Cycle " +:+ pretty i +:+ ": " +:+ show_char ab.1 +:+ " -> " +:+
  show_char ab.2 +:+ " -> " +:+ show_char ab.1 +:+ "  (length = 2)".

Lemma print_cycle_two i ab out :
  print_cycle i (two_cycle ab) out = (out ++ [cycle_line i ab], Ok ()).
Proof.
  unfold print_cycle, two_cycle. cbn [last removelast].
  rewrite io_bind_lift_Ok. unfold print. by do 3 f_equal.
Qed.

Lemma print_cycles_two pairs : ∀ i out,
  print_cycles i (two_cycle <$> pairs) out
  = (out ++ imap (λ k ab, cycle_line (i + k) ab) pairs, Ok ()).
Proof.
  induction pairs as [|ab pairs IH]; intros i out.
  - cbn [fmap list_fmap print_cycles imap]. by rewrite app_nil_r.
  - rewrite fmap_cons. cbn [print_cycles imap].
    change ((print_cycle i (two_cycle ab) ≫=
             λ _, print_cycles (S i) (two_cycle <$> pairs)) out)
      with (io_bind (print_cycle i (two_cycle ab))
              (λ _, print_cycles (S i) (two_cycle <$> pairs)) out).
    unfold io_bind. rewrite print_cycle_two, IH.
    rewrite <- app_assoc. cbn [app]. rewrite Nat.add_0_r.
    do 3 f_equal. apply imap_ext. intros k ab' _. simpl. f_equal. lia.
Qed.

Lemma io_bind_run {A B} (m : io A) (f : A → io B) out out' a :
  m out = (out', Ok a) → (m ≫= f) out = f a out'.
Proof.
  intros Hm. change ((m ≫= f) out) with (io_bind m f out).
  unfold io_bind. by rewrite Hm.
Qed.

Lemma lengths_two_cycles pairs :
  (λ cyc : list ascii, Z.of_nat (length cyc) - 1) <$> (two_cycle <$> pairs)
  = replicate (length pairs) 2.
Proof. induction pairs as [|ab pairs IH]; [done|]. simpl. by f_equal. Qed.

(** X13. What [display_cycles] prints for three distinct rotors, positions
    in [0,26) and reflector A or B: the three header lines and a blank line,
    one line per cycle in the order [get_cycle_structure] returned them,
    numbered from 1 and each of length 2, a blank line, and a summary line
    that is always thirteen times 2 with sum 26. The call then returns
    normally. *)
Theorem display_cycles_report fuel left_rotor middle_rotor right_rotor
    left_pos middle_pos right_pos reflector out :
  (2 ≤ fuel)%nat →
  left_rotor ∈ rotor_options → middle_rotor ∈ rotor_options →
  right_rotor ∈ rotor_options →
  left_rotor ≠ middle_rotor → left_rotor ≠ right_rotor →
  middle_rotor ≠ right_rotor →
  0 ≤ left_pos < 26 → 0 ≤ middle_pos < 26 → 0 ≤ right_pos < 26 →
  reflector ∈ reflector_options →
  ∃ pairs,
    get_cycle_structure fuel (left_rotor, middle_rotor, right_rotor)
      (left_pos, middle_pos, right_pos) reflector
      = Ok (two_cycle <$> pairs) ∧
    display_cycles fuel left_rotor middle_rotor right_rotor
      left_pos middle_pos right_pos reflector out
    = (out ++
       ["**Rotor Order:** " +:+ left_rotor +:+ "-" +:+ middle_rotor +:+
          "-" +:+ right_rotor;
        "**Start Positions:** " +:+ show_char (letter_of left_pos) +:+ " " +:+
          show_char (letter_of middle_pos) +:+ " " +:+
          show_char (letter_of right_pos);
        "**Reflector:** " +:+ reflector;
        ""] ++
       imap (λ k ab, cycle_line (S k) ab) pairs ++
       [""; "**Cycle lengths:** [2, 2, 2, 2, 2, 2, 2, 2, 2, 2, 2, 2, 2] (sum=26)"],
       Ok ()).
Proof.
  intros Hfuel Hleft Hmid Hright Hlm Hlr Hmr Hpl Hpm Hpr Hrefl.
  destruct fuel as [|[|fuel]]; [lia..|].
  destruct (cycle_structure_sorted_pairs fuel left_rotor middle_rotor
              right_rotor left_pos middle_pos right_pos reflector)
    as (pairs & Hrun & Hlen & Hsorted); [done..|].
  exists pairs. split; [done|].
  unfold display_cycles.
  rewrite bool_decide_false by (intros Hsize%three_ids_size; by apply Hsize).
  rewrite Hrun, io_bind_lift_Ok.
  rewrite sorted_two_cycles, io_bind_lift_Ok by done.
  rewrite io_bind_print.
  rewrite !uppercase_getitem by done. rewrite !io_bind_lift_Ok.
  rewrite !io_bind_print.
  rewrite (io_bind_run _ _ _ _ _ (print_cycles_two pairs 1 _)).
  rewrite io_bind_print. unfold print.
  rewrite lengths_two_cycles, Hlen. f_equal.
  rewrite <- !app_assoc. cbn [app]. do 5 f_equal.
Qed.

Lemma display_cycles_report_witness :
  ∃ pairs,
    get_cycle_structure 2 ("I", "II", "III")%string (0, 0, 0) "B"
      = Ok (two_cycle <$> pairs) ∧
    display_cycles 2 "I" "II" "III" 0 0 0 "B" []
    = ([] ++
       ["**Rotor Order:** " +:+ "I" +:+ "-" +:+ "II" +:+ "-" +:+ "III";
        "**Start Positions:** " +:+ show_char (letter_of 0) +:+ " " +:+
          show_char (letter_of 0) +:+ " " +:+ show_char (letter_of 0);
        "**Reflector:** " +:+ "B";
        ""] ++
       imap (λ k ab, cycle_line (S k) ab) pairs ++
       [""; "**Cycle lengths:** [2, 2, 2, 2, 2, 2, 2, 2, 2, 2, 2, 2, 2] (sum=26)"],
       Ok ()).
Proof.
  apply (display_cycles_report 2 "I" "II" "III" 0 0 0 "B" []); at_input.
Defined.

(** ** Errors of the analysis *)

Lemma for_letters_cons fuel rotor_order p reflector_type a ls cycles seen :
  for_letters fuel rotor_order p reflector_type (a :: ls) cycles seen =
  if bool_decide (a ∈ seen) then
    for_letters fuel rotor_order p reflector_type ls cycles seen
  else
    '(cycle, seen) ←
      cycle_loop fuel rotor_order p reflector_type a a [] seen;
    for_letters fuel rotor_order p reflector_type ls (cycles ++ [cycle]) seen.
Proof. reflexivity. Qed.

(** The loop body starts with the press of the current letter. *)
Lemma cycle_loop_S fuel rotor_order p reflector_type start_letter c cycle
    seen e :
  encrypt_letter c rotor_order p reflector_type = Raise e →
  cycle_loop (S fuel) rotor_order p reflector_type start_letter c cycle seen
  = Raise e.
Proof. intros Hpress. cbn [cycle_loop]. by rewrite Hpress. Qed.

(** X14. The analysis starts by pressing [A] from the start positions.
    If that press raises, [get_cycle_structure] raises the same exception
    and returns no cycle, and [display_cycles], given three distinct rotor
    ids, prints nothing before the exception reaches its caller. *)
Theorem first_press_error_propagates fuel left_rotor middle_rotor right_rotor
    left_pos middle_pos right_pos reflector e out :
  (1 ≤ fuel)%nat →
  encrypt_letter "A" (left_rotor, middle_rotor, right_rotor)
    (left_pos, middle_pos, right_pos) reflector = Raise e →
  get_cycle_structure fuel (left_rotor, middle_rotor, right_rotor)
    (left_pos, middle_pos, right_pos) reflector = Raise e ∧
  (left_rotor ≠ middle_rotor → left_rotor ≠ right_rotor →
   middle_rotor ≠ right_rotor →
   display_cycles fuel left_rotor middle_rotor right_rotor
     left_pos middle_pos right_pos reflector out = (out, Raise e)).
Proof.
  intros Hfuel Hpress.
  assert (get_cycle_structure fuel (left_rotor, middle_rotor, right_rotor)
            (left_pos, middle_pos, right_pos) reflector = Raise e) as Hrun.
  { destruct fuel as [|fuel]; [lia|].
    unfold get_cycle_structure.
    change (list_ascii_of_string ascii_uppercase)
      with ("A"%char :: list_ascii_of_string "BCDEFGHIJKLMNOPQRSTUVWXYZ").
    rewrite for_letters_cons.
    rewrite bool_decide_false by apply not_elem_of_empty.
    by rewrite (cycle_loop_S _ _ _ _ _ _ _ _ e Hpress). }
  split; [done|]. intros Hlm Hlr Hmr. unfold display_cycles.
  rewrite bool_decide_false by (intros Hsize%three_ids_size; by apply Hsize).
  by rewrite Hrun.
Qed.

Lemma first_press_error_propagates_witness :
  get_cycle_structure 1 ("I", "II", "III")%string (0, 0, 0) "C"
    = Raise (KeyError "C") ∧
  display_cycles 1 "I" "II" "III" 0 0 0 "C" [] = ([], Raise (KeyError "C")).
Proof.
  destruct (first_press_error_propagates 1 "I" "II" "III" 0 0 0 "C"
              (KeyError "C") []) as [Hrun Hshow]; [at_input..|].
  split; [exact Hrun|apply Hshow; at_input].
Defined.
